(** * The HTLC keeper of irishub (app/v2/htlc/internal/keeper/keeper.go)

    A shallow embedding of the keeper: the key-value store of the module as
    a finite map from byte strings to byte strings, the bank keeper and the
    codec as interfaces, and the three lifecycle operations [CreateHTLC],
    [ClaimHTLC] and [RefundHTLC] as state-passing functions over the
    context. *)

From Stdlib Require Import ZArith List Strings.String Strings.Byte Lia.
From stdpp Require Import gmap strings list sorting.

Local Open Scope Z_scope.

(** ** Byte strings *)

(** A Go [[]byte] is a list of bytes; [nil] and the empty slice are the
    same value here, as they are for [bytes.Equal] and [len]. *)
Abbreviation bytes := (list byte).

#[global] Instance byte_eq_dec : EqDecision byte := Byte.byte_eq_dec.

#[global] Instance byte_countable : Countable byte :=
  inj_countable Byte.to_N Byte.of_N Byte.of_to_N.

(** [byte(v)] of Go: the low eight bits of an unsigned integer. *)
Definition byte_of_Z (v : Z) : byte :=
  match Byte.of_N (Z.to_N (v mod 256)) with
  | Some b => b
  | None => x00
  end.

Definition Z_of_byte (b : byte) : Z := Z.of_N (Byte.to_N b).

(** [bytes.Equal]. *)
Definition bytes_Equal (a b : bytes) : bool := bool_decide (a = b).

(** [[]byte(s)] for a Go string. *)
Definition bytes_of_string (s : string) : bytes := String.list_byte_of_string s.

(** ** Unsigned 64-bit integers *)

(** A [uint64] is a [Z]; the values of the type are those in range.
    The keeper does no arithmetic on them: it hands them on and writes
    their bytes, which keep the low 64 bits. *)
Definition is_uint64 (v : Z) : Prop := 0 <= v < 2 ^ 64.

(** [sdk.Uint64ToBigEndian]: [binary.BigEndian.PutUint64] on a fresh
    buffer of eight bytes, [b[0] = byte(v >> 56)], ..., [b[7] = byte(v)]. *)
Definition Uint64ToBigEndian (v : Z) : bytes :=
  [ byte_of_Z (Z.shiftr v 56); byte_of_Z (Z.shiftr v 48);
    byte_of_Z (Z.shiftr v 40); byte_of_Z (Z.shiftr v 32);
    byte_of_Z (Z.shiftr v 24); byte_of_Z (Z.shiftr v 16);
    byte_of_Z (Z.shiftr v 8);  byte_of_Z v ].

(** ** SHA-256

    [sdk.SHA256] is [crypto/sha256] of the Go library, which is outside
    the sources of the keeper. The function is written out after
    FIPS 180-4 so that the keeper can be run on concrete stores; the
    facts about the keeper use nothing of it but the length of a
    digest. *)
Module Sha256.

Definition u32 (x : Z) : Z := x mod 2 ^ 32.
Definition add32 (x y : Z) : Z := u32 (x + y).
Definition rotr (n x : Z) : Z :=
  Z.lor (Z.shiftr x n) (u32 (Z.shiftl x (32 - n))).
Definition not32 (x : Z) : Z := Z.lxor x (2 ^ 32 - 1).

Definition Ch (x y z : Z) : Z := Z.lxor (Z.land x y) (Z.land (not32 x) z).
Definition Maj (x y z : Z) : Z :=
  Z.lxor (Z.lxor (Z.land x y) (Z.land x z)) (Z.land y z).
Definition bsig0 (x : Z) : Z := Z.lxor (Z.lxor (rotr 2 x) (rotr 13 x)) (rotr 22 x).
Definition bsig1 (x : Z) : Z := Z.lxor (Z.lxor (rotr 6 x) (rotr 11 x)) (rotr 25 x).
Definition ssig0 (x : Z) : Z := Z.lxor (Z.lxor (rotr 7 x) (rotr 18 x)) (Z.shiftr x 3).
Definition ssig1 (x : Z) : Z := Z.lxor (Z.lxor (rotr 17 x) (rotr 19 x)) (Z.shiftr x 10).

(** The constants of the standard are fractional parts of roots of the
    first primes. [iroot k n] is the largest [r] below [2 ^ 36] with
    [r ^ k <= n], found bit by bit. *)
Fixpoint iroot_from (bit : nat) (k n r : Z) : Z :=
  match bit with
  | O => r
  | S bit' =>
      let c := r + 2 ^ Z.of_nat bit' in
      iroot_from bit' k n (if c ^ k <=? n then c else r)
  end.

Definition iroot (k n : Z) : Z := iroot_from 36 k n 0.

Definition is_prime (n : nat) : bool :=
  forallb (fun d => negb (Nat.eqb (n mod d) 0)) (seq 2 (n - 2)).

(** The primes up to 311: there are 64 of them. *)
Definition primes : list Z := map Z.of_nat (filter is_prime (seq 2 310)).

(** The round constants: the first 32 bits of the fractional parts of the
    cube roots of the first 64 primes. *)
Definition K : list Z := map (fun p => u32 (iroot 3 (p * 2 ^ 96))) primes.

(** The eight working variables, and the chaining value. *)
Record regs : Type := Regs { ra : Z; rb : Z; rc : Z; rd : Z;
                             re : Z; rf : Z; rg : Z; rh : Z }.

(** The initial hash value: the first 32 bits of the fractional parts of
    the square roots of the first eight primes. *)
Definition frac_sqrt (p : Z) : Z := u32 (iroot 2 (p * 2 ^ 64)).

Definition H0 : regs :=
  Regs (frac_sqrt 2) (frac_sqrt 3) (frac_sqrt 5) (frac_sqrt 7)
       (frac_sqrt 11) (frac_sqrt 13) (frac_sqrt 17) (frac_sqrt 19).

(** Big-endian words of a block, and the bytes of a word. *)
Fixpoint words (n : nat) (l : bytes) : list Z :=
  match n with
  | O => []
  | S n' =>
      match l with
      | b0 :: b1 :: b2 :: b3 :: l' =>
          (Z_of_byte b0 * 2 ^ 24 + Z_of_byte b1 * 2 ^ 16
           + Z_of_byte b2 * 2 ^ 8 + Z_of_byte b3) :: words n' l'
      | _ => []
      end
  end.

Definition word_bytes (w : Z) : bytes :=
  [ byte_of_Z (Z.shiftr w 24); byte_of_Z (Z.shiftr w 16);
    byte_of_Z (Z.shiftr w 8); byte_of_Z w ].

(** The message schedule: sixteen words of the block, extended to 64. *)
Definition at_back (w : list Z) (i : nat) : Z :=
  nth (length w - i)%nat w 0.

Fixpoint schedule (n : nat) (w : list Z) : list Z :=
  match n with
  | O => w
  | S n' =>
      schedule n'
        (w ++ [add32 (add32 (ssig1 (at_back w 2)) (at_back w 7))
                     (add32 (ssig0 (at_back w 15)) (at_back w 16))])
  end.

Definition round (s : regs) (kw : Z * Z) : regs :=
  let t1 := add32 (add32 (add32 (rh s) (bsig1 (re s)))
                         (add32 (Ch (re s) (rf s) (rg s)) (fst kw))) (snd kw) in
  let t2 := add32 (bsig0 (ra s)) (Maj (ra s) (rb s) (rc s)) in
  Regs (add32 t1 t2) (ra s) (rb s) (rc s) (add32 (rd s) t1) (re s) (rf s) (rg s).

Definition compress (h : regs) (block : bytes) : regs :=
  let w := schedule 48 (words 16 block) in
  let s := fold_left round (combine K w) h in
  Regs (add32 (ra h) (ra s)) (add32 (rb h) (rb s))
       (add32 (rc h) (rc s)) (add32 (rd h) (rd s))
       (add32 (re h) (re s)) (add32 (rf h) (rf s))
       (add32 (rg h) (rg s)) (add32 (rh h) (rh s)).

(** Padding: the bit one, zeros up to 56 modulo 64, the bit length. *)
Definition pad (msg : bytes) : bytes :=
  let n := Z.of_nat (length msg) in
  msg ++ x80 :: repeat x00 (Z.to_nat ((55 - n) mod 64))
      ++ Uint64ToBigEndian (8 * n).

Fixpoint blocks (n : nat) (h : regs) (l : bytes) : regs :=
  match n with
  | O => h
  | S n' => blocks n' (compress h (firstn 64 l)) (skipn 64 l)
  end.

Definition digest (h : regs) : bytes :=
  word_bytes (ra h) ++ word_bytes (rb h) ++ word_bytes (rc h)
    ++ word_bytes (rd h) ++ word_bytes (re h) ++ word_bytes (rf h)
    ++ word_bytes (rg h) ++ word_bytes (rh h).

Definition sum (msg : bytes) : bytes :=
  let p := pad msg in
  digest (blocks (length p / 64)%nat H0 p).

End Sha256.

(** [sdk.SHA256]. *)
Definition SHA256 (data : bytes) : bytes := Sha256.sum data.

(** [hex.EncodeToString], used to read digests. *)
Definition hex_digit (n : Z) : Ascii.ascii :=
  Ascii.ascii_of_nat (Z.to_nat (if n <? 10 then 48 + n else 87 + n)).

Fixpoint hex_EncodeToString (b : bytes) : string :=
  match b with
  | [] => EmptyString
  | x :: b' =>
      String (hex_digit (Z_of_byte x / 16))
        (String (hex_digit (Z_of_byte x mod 16)) (hex_EncodeToString b'))
  end.


(** ** Types of the module

    The declarations of the [types] package that the keeper uses. The
    record [HTLC] lists the fields the keeper reads or writes. *)

Abbreviation AccAddress := (list byte).
Abbreviation CodespaceType := string.

Record Coin : Type := { Denom : string; Amount : Z }.
Abbreviation Coins := (list Coin).

Inductive HTLCState : Type :=
| StateOpen
| StateCompleted
| StateExpired
| StateRefunded.

Record HTLC : Type := {
  Sender : AccAddress;
  Receiver : AccAddress;
  ReceiverOnOtherChain : bytes;
  OutAmount : Coin;
  Secret : bytes;
  Timestamp : Z;
  ExpireHeight : Z;
  State : HTLCState
}.

#[global] Instance Coin_eq_dec : EqDecision Coin.
Proof. solve_decision. Defined.
#[global] Instance HTLCState_eq_dec : EqDecision HTLCState.
Proof. solve_decision. Defined.
#[global] Instance HTLC_eq_dec : EqDecision HTLC.
Proof. solve_decision. Defined.

(** [htlc.Secret = secret; htlc.State = state] on the local copy. *)
Definition with_secret (htlc : HTLC) (secret : bytes) : HTLC :=
  {| Sender := Sender htlc; Receiver := Receiver htlc;
     ReceiverOnOtherChain := ReceiverOnOtherChain htlc;
     OutAmount := OutAmount htlc; Secret := secret;
     Timestamp := Timestamp htlc; ExpireHeight := ExpireHeight htlc;
     State := State htlc |}.

Definition with_state (htlc : HTLC) (state : HTLCState) : HTLC :=
  {| Sender := Sender htlc; Receiver := Receiver htlc;
     ReceiverOnOtherChain := ReceiverOnOtherChain htlc;
     OutAmount := OutAmount htlc; Secret := Secret htlc;
     Timestamp := Timestamp htlc; ExpireHeight := ExpireHeight htlc;
     State := state |}.

(** An error of the bank keeper, as the keeper hands it on. *)
Record BankError : Type := {
  bank_codespace : CodespaceType;
  bank_code : Z;
  bank_msg : string
}.

(** [sdk.Error]: the four errors the keeper builds, told apart by their
    constructor in the [types] package, and the errors of the bank keeper,
    which come from another module. *)
Inductive Error : Type :=
| ErrSecretHashLockAlreadyExists (codespace : CodespaceType) (msg : string)
| ErrStateIsNotOpen (codespace : CodespaceType) (msg : string)
| ErrInvalidSecret (codespace : CodespaceType) (msg : string)
| ErrInvalidSecretHashLock (codespace : CodespaceType) (msg : string)
| ErrFromBank (e : BankError).

(** [types.DefaultCodespace]: the name of the module. Its value is
    declared with the types and plays no part below. *)
Definition DefaultCodespace : CodespaceType := "htlc"%string.

(** [sdk.Tags]. The text of an address ([AccAddress.String], bech32) is
    kept as the address it renders. *)
Inductive TagKey : Type :=
| TagSender
| TagReceiver
| TagReceiverOnOtherChain
| TagSecretHashLock
| TagSecret.

Inductive TagValue : Type :=
| AddressString (a : AccAddress)
| Text (s : string)
| Raw (b : bytes).

Abbreviation Tags := (list (TagKey * TagValue)).

Definition NewTags (kvs : list (TagKey * TagValue)) : Tags := kvs.

(** The coin flow tags of the context. *)
Inductive CoinFlowType : Type :=
| CoinHTLCCreateFlow
| CoinHTLCClaimFlow
| CoinHTLCRefundFlow.

Record CoinFlowTag : Type := {
  flow_from : AccAddress;
  flow_to : AccAddress;
  flow_amount : Coin;
  flow_type : CoinFlowType;
  flow_desc : string
}.

(** A call of [SendCoins]: from, to, amount. *)
Record Transfer : Type := {
  transfer_from : AccAddress;
  transfer_to : AccAddress;
  transfer_amount : Coins
}.

(** ** Collaborators *)

(** [types.BankKeeper]: the one method the keeper calls. The accounts
    are the part of the context the bank keeper owns; a call answers
    with the accounts as it leaves them and the error, if any. *)
Class BankKeeper : Type := {
  Accounts : Type;
  SendCoins : Accounts -> AccAddress -> AccAddress -> Coins ->
              Accounts * option BankError
}.

(** [codec.Codec], at the two types the keeper stores. Unmarshalling
    answers [None] where [MustUnmarshalBinaryLengthPrefixed] panics.
    The one law is that a marshalled record is read back. *)
Class Codec : Type := {
  MarshalHTLC : HTLC -> bytes;
  UnmarshalHTLC : bytes -> option HTLC;
  MarshalBytes : bytes -> bytes;
  UnmarshalHTLC_MarshalHTLC :
    forall htlc, UnmarshalHTLC (MarshalHTLC htlc) = Some htlc
}.

(** [crypto.AddressHash] of tendermint: the first twenty bytes of the
    SHA-256 digest. *)
Definition AddressHash (bz : bytes) : bytes := firstn 20 (SHA256 bz).

(** ** Keys of the store *)

(** [KeyHTLC] and [KeyHTLCExpireQueue] are declared outside the keeper.
    The layout is the one of the spec: ["htlc:" ‖ secretHashLock] for a
    record and ["htlc:expire:" ‖ bigEndian(expireHeight) ‖ secretHashLock]
    for an entry of the expiration queue. *)

(** Modelled from the spec: the prefix of the keys of the records,
    ["htlc:"]. *)
Definition PrefixHTLC : bytes := bytes_of_string "htlc:".

(** Modelled from the spec: the prefix of the keys of the expiration
    queue, ["htlc:expire:"]. *)
Definition PrefixHTLCExpireQueue : bytes := bytes_of_string "htlc:expire:".

(** Modelled from the spec: [KeyHTLC], the key of a record,
    ["htlc:" ‖ secretHashLock]. *)
Definition KeyHTLC (secretHashLock : bytes) : bytes :=
  PrefixHTLC ++ secretHashLock.

(** Modelled from the spec: the prefix of the entries of one height,
    ["htlc:expire:" ‖ bigEndian(expireHeight)]. *)
Definition KeyHTLCExpireQueueSubspace (expireHeight : Z) : bytes :=
  PrefixHTLCExpireQueue ++ Uint64ToBigEndian expireHeight.

(** Modelled from the spec: [KeyHTLCExpireQueue], the key of an entry of
    the expiration queue,
    ["htlc:expire:" ‖ bigEndian(expireHeight) ‖ secretHashLock]. *)
Definition KeyHTLCExpireQueue (expireHeight : Z) (secretHashLock : bytes)
  : bytes :=
  KeyHTLCExpireQueueSubspace expireHeight ++ secretHashLock.

(** ** The keeper *)

Section keeper.

Context {bk : BankKeeper} {cdc : Codec}.

(** [sdk.Context], as far as the keeper reaches into it: the store
    behind [k.storeKey], the accounts behind [k.bk], the coin flow
    tags, and the calls of [k.bk.SendCoins] made so far, latest last. *)
Record sdk_Context : Type := {
  store : gmap bytes bytes;
  accounts : Accounts;
  coinflow : list CoinFlowTag;
  sent : list Transfer
}.

(** The fields of [Keeper] that are values; [cdc] and [bk] are the
    interfaces above. *)
Record Keeper : Type := { codespace : CodespaceType }.

(** A method run in a context either panics ([None]) or returns a
    value and leaves the context changed in place. *)
Definition M (A : Type) : Type := sdk_Context -> option (A * sdk_Context).

#[local] Instance M_ret : MRet M := fun A a ctx => Some (a, ctx).
#[local] Instance M_bind : MBind M := fun A B f m ctx =>
  match m ctx with
  | Some (a, ctx') => f a ctx'
  | None => None
  end.

Definition panic {A : Type} : M A := fun _ => None.

(** [store.Has], [store.Get], [store.Set], [store.Delete]. *)
Definition store_Has (key : bytes) : M bool := fun ctx =>
  Some (bool_decide (is_Some (store ctx !! key)), ctx).

Definition store_Get (key : bytes) : M (option bytes) := fun ctx =>
  Some (store ctx !! key, ctx).

Definition store_Set (key value : bytes) : M unit := fun ctx =>
  Some (tt, {| store := <[key := value]> (store ctx);
               accounts := accounts ctx;
               coinflow := coinflow ctx;
               sent := sent ctx |}).

Definition store_Delete (key : bytes) : M unit := fun ctx =>
  Some (tt, {| store := delete key (store ctx);
               accounts := accounts ctx;
               coinflow := coinflow ctx;
               sent := sent ctx |}).

(** [k.bk.SendCoins(ctx, from, to, amt)]: the call is recorded, the
    bank keeper moves the coins or answers with an error. *)
Definition bk_SendCoins (from to : AccAddress) (amt : Coins)
  : M (option BankError) := fun ctx =>
  let r := SendCoins (accounts ctx) from to amt in
  Some (snd r,
        {| store := store ctx;
           accounts := fst r;
           coinflow := coinflow ctx;
           sent := sent ctx ++ [ {| transfer_from := from;
                                    transfer_to := to;
                                    transfer_amount := amt |} ] |}).

(** [ctx.CoinFlowTags().AppendCoinFlowTag]. *)
Definition AppendCoinFlowTag (from to : AccAddress) (amount : Coin)
    (flow : CoinFlowType) (desc : string) : M unit := fun ctx =>
  Some (tt, {| store := store ctx;
               accounts := accounts ctx;
               coinflow := coinflow ctx ++ [ {| flow_from := from;
                                                flow_to := to;
                                                flow_amount := amount;
                                                flow_type := flow;
                                                flow_desc := desc |} ];
               sent := sent ctx |}).

(** [getHTLCAddress]. *)
Definition getHTLCAddress (denom : string) : AccAddress :=
  AddressHash (bytes_of_string denom).

(** [GetSecretHashLock]. *)
Definition GetSecretHashLock (k : Keeper) (secret : bytes) (timestamp : Z)
  : bytes :=
  SHA256 (secret ++ Uint64ToBigEndian timestamp).

(** [HasSecretHashLock]. *)
Definition HasSecretHashLock (k : Keeper) (secretHashLock : bytes) : M bool :=
  store_Has (KeyHTLC secretHashLock).

(** [SetHTLC]. *)
Definition SetHTLC (k : Keeper) (htlc : HTLC) (secretHashLock : bytes)
  : M unit :=
  let bz := MarshalHTLC htlc in
  store_Set (KeyHTLC secretHashLock) bz.

(** [GetHTLC]: the record, or the error of an unknown hash lock. *)
Definition GetHTLC (k : Keeper) (secretHashLock : bytes) : M (Error + HTLC) :=
  bz ← store_Get (KeyHTLC secretHashLock);
  match bz with
  | None =>
      mret (inl (ErrInvalidSecretHashLock (codespace k)
                   ("invalid secret hash lock: "
                    +:+ hex_EncodeToString secretHashLock)))
  | Some bz =>
      match UnmarshalHTLC bz with
      | Some htlc => mret (inr htlc)
      | None => panic
      end
  end.

(** [AddHTLCToExpireQueue]. *)
Definition AddHTLCToExpireQueue (k : Keeper) (expireHeight : Z)
    (secretHashLock : bytes) : M unit :=
  let bz := MarshalBytes secretHashLock in
  store_Set (KeyHTLCExpireQueue expireHeight secretHashLock) bz.

(** [DeleteHTLCFromExpireQueue]. *)
Definition DeleteHTLCFromExpireQueue (k : Keeper) (expireHeight : Z)
    (secretHashLock : bytes) : M unit :=
  store_Delete (KeyHTLCExpireQueue expireHeight secretHashLock).

(** [CreateHTLC]. *)
Definition CreateHTLC (k : Keeper) (htlc : HTLC) (secretHashLock : bytes)
  : M (Error + Tags) :=
  has ← HasSecretHashLock k secretHashLock;
  if (has : bool) then
    mret (inl (ErrSecretHashLockAlreadyExists DefaultCodespace
                 ("the secret hash lock already exists: "
                  +:+ hex_EncodeToString secretHashLock)))
  else
    let htlcAddr := getHTLCAddress (Denom (OutAmount htlc)) in
    err ← bk_SendCoins (Sender htlc) htlcAddr [OutAmount htlc];
    match err with
    | Some e => mret (inl (ErrFromBank e))
    | None =>
        AppendCoinFlowTag (Sender htlc) htlcAddr (OutAmount htlc)
          CoinHTLCCreateFlow "";;
        SetHTLC k htlc secretHashLock;;
        AddHTLCToExpireQueue k (ExpireHeight htlc) secretHashLock;;
        mret (inr (NewTags
          [ (TagSender, AddressString (Sender htlc));
            (TagReceiver, AddressString (Receiver htlc));
            (TagReceiverOnOtherChain, Raw (ReceiverOnOtherChain htlc));
            (TagSecretHashLock, Text (hex_EncodeToString secretHashLock)) ]))
    end.

(** [ClaimHTLC]. *)
Definition ClaimHTLC (k : Keeper) (secret secretHashLock : bytes)
  : M (Error + Tags) :=
  r ← GetHTLC k secretHashLock;
  match r with
  | inl err => mret (inl err)
  | inr htlc =>
      if negb (bool_decide (State htlc = StateOpen)) then
        mret (inl (ErrStateIsNotOpen (codespace k) "HTLC state is not Open."))
      else if negb (bytes_Equal (GetSecretHashLock k secret (Timestamp htlc))
                                secretHashLock) then
        mret (inl (ErrInvalidSecret (codespace k)
                     ("invalid secret: " +:+ hex_EncodeToString secret)))
      else
        let htlcAddr := getHTLCAddress (Denom (OutAmount htlc)) in
        err ← bk_SendCoins htlcAddr (Receiver htlc) [OutAmount htlc];
        match err with
        | Some e => mret (inl (ErrFromBank e))
        | None =>
            let htlc := with_secret htlc secret in
            let htlc := with_state htlc StateCompleted in
            SetHTLC k htlc secretHashLock;;
            AppendCoinFlowTag htlcAddr (Receiver htlc) (OutAmount htlc)
              CoinHTLCClaimFlow "";;
            mret (inr (NewTags
              [ (TagSender, AddressString (Sender htlc));
                (TagReceiver, AddressString (Receiver htlc));
                (TagSecretHashLock, Text (hex_EncodeToString secretHashLock));
                (TagSecret, Text (hex_EncodeToString secret)) ]))
        end
  end.

(** [RefundHTLC]. *)
Definition RefundHTLC (k : Keeper) (secretHashLock : bytes)
  : M (Error + Tags) :=
  r ← GetHTLC k secretHashLock;
  match r with
  | inl err => mret (inl err)
  | inr htlc =>
      if negb (bool_decide (State htlc = StateExpired)) then
        mret (inl (ErrStateIsNotOpen (codespace k)
                     "HTLC state is not Expired."))
      else
        let htlcAddr := getHTLCAddress (Denom (OutAmount htlc)) in
        err ← bk_SendCoins htlcAddr (Sender htlc) [OutAmount htlc];
        match err with
        | Some e => mret (inl (ErrFromBank e))
        | None =>
            let htlc := with_state htlc StateRefunded in
            SetHTLC k htlc secretHashLock;;
            AppendCoinFlowTag htlcAddr (Sender htlc) (OutAmount htlc)
              CoinHTLCRefundFlow "";;
            mret (inr (NewTags
              [ (TagSender, AddressString (Sender htlc));
                (TagSecretHashLock, Text (hex_EncodeToString secretHashLock)) ]))
        end
  end.

End keeper.

(** ** The three lifecycle operations as one type *)

Inductive Operation : Type :=
| Create (htlc : HTLC) (secretHashLock : bytes)
| Claim (secret secretHashLock : bytes)
| Refund (secretHashLock : bytes).

Definition run {bk : BankKeeper} {cdc : Codec} (k : Keeper) (op : Operation)
  : M (Error + Tags) :=
  match op with
  | Create htlc secretHashLock => CreateHTLC k htlc secretHashLock
  | Claim secret secretHashLock => ClaimHTLC k secret secretHashLock
  | Refund secretHashLock => RefundHTLC k secretHashLock
  end.

(** The context a call leaves behind (the context itself after a panic). *)
Definition after {bk : BankKeeper} {A : Type} (m : M A) (ctx : sdk_Context)
  : sdk_Context :=
  match m ctx with
  | Some (_, ctx') => ctx'
  | None => ctx
  end.

(** ** Reading the store *)

(** The record stored under a hash lock: what [GetHTLC] reads. *)
Definition record_at {cdc : Codec} (st : gmap bytes bytes)
    (secretHashLock : bytes) : option HTLC :=
  st !! KeyHTLC secretHashLock ≫= UnmarshalHTLC.

(** A value is stored under the key of the hash lock: what
    [HasSecretHashLock] tests. *)
Definition has_record (st : gmap bytes bytes) (secretHashLock : bytes) : Prop :=
  is_Some (st !! KeyHTLC secretHashLock).

(** An entry of the expiration queue is stored for the height and the
    hash lock. *)
Definition in_expire_queue (st : gmap bytes bytes) (expireHeight : Z)
    (secretHashLock : bytes) : Prop :=
  is_Some (st !! KeyHTLCExpireQueue expireHeight secretHashLock).

(** Byte strings in the order of the keys of the store. *)
Fixpoint bytes_leb (a b : bytes) : bool :=
  match a, b with
  | [], _ => true
  | _ :: _, [] => false
  | x :: a', y :: b' =>
      if bool_decide (x = y) then bytes_leb a' b'
      else (Byte.to_N x <? Byte.to_N y)%N
  end.

Definition bytes_le (a b : bytes) : Prop := bytes_leb a b = true.

#[global] Instance bytes_le_dec : RelDecision bytes_le.
Proof. intros a b. unfold bytes_le. apply _. Defined.

Definition cut_prefix (p key : bytes) : option bytes :=
  if bool_decide (take (length p) key = p)
  then Some (drop (length p) key)
  else None.

(** Modelled from the spec: the range scan of the expiration index is not
    among the methods of the keeper. After the spec, a scan over a single
    height yields all digests of the entries keyed by that height, in
    digest order: the keys of the store under the prefix of the height,
    with the prefix taken off. *)
Definition scan_expire_queue (st : gmap bytes bytes) (expireHeight : Z)
  : list bytes :=
  merge_sort bytes_le
    (omap (cut_prefix (KeyHTLCExpireQueueSubspace expireHeight))
          (map_to_list st).*1).

(** ** The hash lock in the words of the spec *)

(** [big_endian n v]: the [n] base-256 digits of [v], the most
    significant first. *)
Fixpoint big_endian (n : nat) (v : Z) : bytes :=
  match n with
  | O => []
  | S n' => big_endian n' (v / 256) ++ [byte_of_Z (v mod 256)]
  end.


(** ** The invariant on secrets *)

(** The secret of a record is non-empty iff the record is completed. *)
Definition secret_iff_completed (htlc : HTLC) : Prop :=
  Secret htlc ≠ [] ↔ State htlc = StateCompleted.

(** Every record stored under a hash lock of [n] bytes satisfies it. *)
Definition secrets_invariant {cdc : Codec} (n : nat) (st : gmap bytes bytes)
  : Prop :=
  ∀ secretHashLock htlc,
    length secretHashLock = n →
    record_at st secretHashLock = Some htlc →
    secret_iff_completed htlc.

(** What an operation has to be given for the invariant to survive it:
    [CreateHTLC] a record that satisfies it and a hash lock of [n] bytes,
    [ClaimHTLC] a secret that is not empty. *)
Definition keeps_secrets_invariant (n : nat) (op : Operation) : Prop :=
  match op with
  | Create htlc secretHashLock =>
      length secretHashLock = n ∧ secret_iff_completed htlc
  | Claim secret _ => secret ≠ []
  | Refund _ => True
  end.

(** ** A bank keeper and a codec to run the keeper with *)

(** The transfer collaborator of the spec,
    [sendAsset(from, to, coins) -> Ok | InsufficientFunds], over a table of
    balances by address and denomination. *)

(** Modelled from the spec: the error [InsufficientFunds] of the transfer
    collaborator. *)
Definition InsufficientFunds : BankError :=
  {| bank_codespace := "sdk"; bank_code := 10; bank_msg := "insufficient funds" |}.

Definition balance (l : gmap (bytes * string) Z) (a : AccAddress)
    (denom : string) : Z :=
  default 0 (l !! (a, denom)).

(** Modelled from the spec: [sendAsset] of the transfer collaborator. Each
    coin is moved if the sender holds it; otherwise nothing more is moved
    and the answer is [InsufficientFunds]. *)
Fixpoint ledger_send (l : gmap (bytes * string) Z) (from to : AccAddress)
    (amt : Coins) : gmap (bytes * string) Z * option BankError :=
  match amt with
  | [] => (l, None)
  | c :: amt' =>
      if bool_decide (0 <= Amount c <= balance l from (Denom c)) then
        let l1 := <[(from, Denom c) := balance l from (Denom c) - Amount c]> l in
        let l2 := <[(to, Denom c) := balance l1 to (Denom c) + Amount c]> l1 in
        ledger_send l2 from to amt'
      else (l, Some InsufficientFunds)
  end.

(** Modelled from the spec: the transfer collaborator as a bank keeper. *)
Definition ledger : BankKeeper :=
  {| Accounts := gmap (bytes * string) Z; SendCoins := ledger_send |}.

(** A codec: a record is numbered, and the number is written bit by bit;
    a byte string is written after its length. The encoding of records
    is one to one, which is all the keeper asks of a codec. *)
Definition HTLCState_index (s : HTLCState) : nat :=
  match s with
  | StateOpen => 0 | StateCompleted => 1 | StateExpired => 2 | StateRefunded => 3
  end%nat.

Definition HTLCState_of_index (n : nat) : HTLCState :=
  match n with
  | 0 => StateOpen | 1 => StateCompleted | 2 => StateExpired | _ => StateRefunded
  end%nat.

#[global] Instance HTLCState_countable : Countable HTLCState.
Proof.
  apply (inj_countable' HTLCState_index HTLCState_of_index).
  intros []; reflexivity.
Defined.

#[global] Instance Coin_countable : Countable Coin.
Proof.
  apply (inj_countable' (fun c => (Denom c, Amount c))
                        (fun p => {| Denom := p.1; Amount := p.2 |})).
  intros []; reflexivity.
Defined.

#[global] Instance HTLC_countable : Countable HTLC.
Proof.
  apply (inj_countable'
    (fun h => (((Sender h, Receiver h), (ReceiverOnOtherChain h, OutAmount h)),
               ((Secret h, Timestamp h), (ExpireHeight h, State h))))
    (fun t => {| Sender := t.1.1.1; Receiver := t.1.1.2;
                 ReceiverOnOtherChain := t.1.2.1; OutAmount := t.1.2.2;
                 Secret := t.2.1.1; Timestamp := t.2.1.2;
                 ExpireHeight := t.2.2.1; State := t.2.2.2 |})).
  intros []; reflexivity.
Defined.

Fixpoint bits_of_positive (p : positive) : bytes :=
  match p with
  | xH => []
  | xO p' => x00 :: bits_of_positive p'
  | xI p' => x01 :: bits_of_positive p'
  end.

Fixpoint positive_of_bits (b : bytes) : positive :=
  match b with
  | [] => xH
  | x :: b' =>
      if bool_decide (x = x00) then xO (positive_of_bits b')
      else xI (positive_of_bits b')
  end.

#[global] Instance bitwise_codec : Codec.
Proof.
  refine {| MarshalHTLC := fun htlc => bits_of_positive (encode htlc);
            UnmarshalHTLC := fun bz => decode (positive_of_bits bz);
            MarshalBytes := fun b => byte_of_Z (Z.of_nat (length b)) :: b |}.
  intros htlc.
  assert (Hbits : ∀ p, positive_of_bits (bits_of_positive p) = p)
    by (induction p; simpl; congruence).
  rewrite Hbits. apply decode_encode.
Defined.

(** ** A contract to run *)

Module Scenario.

Definition alice : AccAddress := bytes_of_string "alice".
Definition bob : AccAddress := bytes_of_string "bob".
Definition atom100 : Coin := {| Denom := "atom"; Amount := 100 |}.
Definition secret : bytes := bytes_of_string "open sesame".
Definition timestamp : Z := 1580000000.

Definition k : Keeper := {| codespace := "htlc" |}.

Definition hashLock : bytes := GetSecretHashLock k secret timestamp.

Definition htlc : HTLC :=
  {| Sender := alice; Receiver := bob;
     ReceiverOnOtherChain := bytes_of_string "bob on the other chain";
     OutAmount := atom100; Secret := []; Timestamp := timestamp;
     ExpireHeight := 1000; State := StateOpen |}.

(** No contract yet; alice holds 100 atom. *)
Definition ctx0 : @sdk_Context ledger :=
  {| store := ∅;
     accounts := {[ (alice, "atom"%string) := 100 ]};
     coinflow := [];
     sent := [] |}.

(** After the contract is created. *)
Definition ctx1 : @sdk_Context ledger :=
  after (CreateHTLC k htlc hashLock) ctx0.

(** After it is claimed. *)
Definition ctx2 : @sdk_Context ledger :=
  after (ClaimHTLC k secret hashLock) ctx1.

(** The store of [ctx1], with nothing held in escrow. *)
Definition ctx1_no_escrow : @sdk_Context ledger :=
  {| store := store ctx1; accounts := ∅;
     coinflow := coinflow ctx1; sent := sent ctx1 |}.

(** The contract of [ctx1] after the sweep has marked it expired, and
    after the refund. *)
Definition ctx1_expired : @sdk_Context ledger :=
  after (SetHTLC k (with_state htlc StateExpired) hashLock) ctx1.

Definition ctx2_refunded : @sdk_Context ledger :=
  after (RefundHTLC k hashLock) ctx1_expired.

(** A record handed to [CreateHTLC] as completed. *)
Definition htlc_completed : HTLC := with_state htlc StateCompleted.

(** The hash lock of the empty secret, the contract created under it,
    and the contract claimed. *)
Definition emptyLock : bytes := GetSecretHashLock k [] timestamp.

Definition ctx1_empty : @sdk_Context ledger :=
  after (CreateHTLC k htlc emptyLock) ctx0.

Definition ctx2_empty : @sdk_Context ledger :=
  after (ClaimHTLC k [] emptyLock) ctx1_empty.

(** Three bytes: the digest of no secret. *)
Definition notALock : bytes := bytes_of_string "abc".

(** The tags the calls return. *)
Definition createTags (lock : bytes) : Tags :=
  [ (TagSender, AddressString alice);
    (TagReceiver, AddressString bob);
    (TagReceiverOnOtherChain, Raw (ReceiverOnOtherChain htlc));
    (TagSecretHashLock, Text (hex_EncodeToString lock)) ].

Definition claimTags (s lock : bytes) : Tags :=
  [ (TagSender, AddressString alice);
    (TagReceiver, AddressString bob);
    (TagSecretHashLock, Text (hex_EncodeToString lock));
    (TagSecret, Text (hex_EncodeToString s)) ].


End Scenario.

(** ** Runs of operations *)



(** The hash lock an operation is called with. *)
Definition op_lock (op : Operation) : bytes :=
  match op with
  | Create _ secretHashLock => secretHashLock
  | Claim _ secretHashLock => secretHashLock
  | Refund secretHashLock => secretHashLock
  end.

(** The keys of the store an operation writes when it succeeds:
    [SetHTLC] in all three, [AddHTLCToExpireQueue] in [CreateHTLC]. *)
Definition op_keys (op : Operation) : list bytes :=
  match op with
  | Create htlc secretHashLock =>
      [ KeyHTLC secretHashLock;
        KeyHTLCExpireQueue (ExpireHeight htlc) secretHashLock ]
  | Claim _ secretHashLock => [ KeyHTLC secretHashLock ]
  | Refund secretHashLock => [ KeyHTLC secretHashLock ]
  end.

(** The coin flow an operation tags. *)
Definition op_flow (op : Operation) : CoinFlowType :=
  match op with
  | Create _ _ => CoinHTLCCreateFlow
  | Claim _ _ => CoinHTLCClaimFlow
  | Refund _ => CoinHTLCRefundFlow
  end.

(** Operations called one after the other, each in the context the one
    before left; a panic ends the run. The answers are kept in order. *)
Fixpoint run_all {bk : BankKeeper} {cdc : Codec} (k : Keeper)
    (ops : list Operation) : M (list (Error + Tags)) := fun ctx =>
  match ops with
  | [] => Some ([], ctx)
  | op :: ops' =>
      match run k op ctx with
      | Some (r, ctx') =>
          match run_all k ops' ctx' with
          | Some (rs, ctx'') => Some (r :: rs, ctx'')
          | None => None
          end
      | None => None
      end
  end.



(** How many calls of a run the test picks. *)
Fixpoint count_calls (test : Operation → Error + Tags → bool)
    (ops : list Operation) (rs : list (Error + Tags)) : nat :=
  match ops, rs with
  | op :: ops', r :: rs' =>
      ((if test op r then 1 else 0) + count_calls test ops' rs')%nat
  | _, _ => 0%nat
  end.

(** A [CreateHTLC] on the hash lock that succeeded. *)
Definition creates_at (secretHashLock : bytes) (op : Operation)
    (r : Error + Tags) : bool :=
  match op, r with
  | Create _ lock, inr _ => bool_decide (lock = secretHashLock)
  | _, _ => false
  end.

(** A [RefundHTLC] on the hash lock that succeeded. *)
Definition refunds_at (secretHashLock : bytes) (op : Operation)
    (r : Error + Tags) : bool :=
  match op, r with
  | Refund lock, inr _ => bool_decide (lock = secretHashLock)
  | _, _ => false
  end.

(** A record no operation moves on: completed or refunded. *)
Definition terminal (htlc : HTLC) : Prop :=
  State htlc = StateCompleted ∨ State htlc = StateRefunded.

(** The secret of a completed record is the secret of the hash lock the
    record is stored under. *)
Definition completed_secret_opens (k : Keeper) (secretHashLock : bytes)
    (htlc : HTLC) : Prop :=
  State htlc = StateCompleted →
  GetSecretHashLock k (Secret htlc) (Timestamp htlc) = secretHashLock.

(** It is so for every record stored under a hash lock of [n] bytes. *)
Definition secrets_open {cdc : Codec} (n : nat) (k : Keeper)
    (st : gmap bytes bytes) : Prop :=
  ∀ secretHashLock htlc,
    length secretHashLock = n →
    record_at st secretHashLock = Some htlc →
    completed_secret_opens k secretHashLock htlc.

(** What [CreateHTLC] has to be given for that to survive: a hash lock of
    [n] bytes and a record that is not completed, or is so with the
    secret of the hash lock. *)
Definition keeps_secrets_open (n : nat) (k : Keeper) (op : Operation) : Prop :=
  match op with
  | Create htlc secretHashLock =>
      length secretHashLock = n ∧ completed_secret_opens k secretHashLock htlc
  | Claim _ _ => True
  | Refund _ => True
  end.

(** ** Runs of the contract of [Scenario] *)

Module Runs.

(** A second contract of alice, under the hash lock of another secret. *)
Definition otherLock : bytes :=
  GetSecretHashLock Scenario.k (bytes_of_string "open barley")
    Scenario.timestamp.

(** Create, claim, claim again, refund, create again. *)
Definition ops : list Operation :=
  [ Create Scenario.htlc Scenario.hashLock;
    Claim Scenario.secret Scenario.hashLock;
    Claim Scenario.secret Scenario.hashLock;
    Refund Scenario.hashLock;
    Create Scenario.htlc Scenario.hashLock ].

Definition replies : list (Error + Tags) :=
  [ inr (Scenario.createTags Scenario.hashLock);
    inr (Scenario.claimTags Scenario.secret Scenario.hashLock);
    inl (ErrStateIsNotOpen "htlc" "HTLC state is not Open.");
    inl (ErrStateIsNotOpen "htlc" "HTLC state is not Expired.");
    inl (ErrSecretHashLockAlreadyExists "htlc"
           ("the secret hash lock already exists: "
            +:+ hex_EncodeToString Scenario.hashLock)) ].



End Runs.

(** * Facts about the keeper *)

Ltac unfold_keeper :=
  unfold run, CreateHTLC, ClaimHTLC, RefundHTLC, GetHTLC, HasSecretHashLock,
    SetHTLC, AddHTLCToExpireQueue, DeleteHTLCFromExpireQueue, store_Has,
    store_Get, store_Set, store_Delete, bk_SendCoins, AppendCoinFlowTag,
    panic, mbind, mret, M_bind, M_ret in *.

Lemma KeyHTLC_inj (a b : bytes) : KeyHTLC a = KeyHTLC b → a = b.
Proof. unfold KeyHTLC. apply app_inv_head. Qed.

Lemma KeyHTLCExpireQueue_inj (h : Z) (a b : bytes) :
  KeyHTLCExpireQueue h a = KeyHTLCExpireQueue h b → a = b.
Proof. unfold KeyHTLCExpireQueue. apply app_inv_head. Qed.

Lemma length_KeyHTLC (a : bytes) : length (KeyHTLC a) = (5 + length a)%nat.
Proof. reflexivity. Qed.

Lemma length_KeyHTLCExpireQueue (h : Z) (a : bytes) :
  length (KeyHTLCExpireQueue h a) = (20 + length a)%nat.
Proof. reflexivity. Qed.

Lemma KeyHTLC_ne_KeyHTLCExpireQueue (h : Z) (a b : bytes) :
  length a = length b → KeyHTLC a ≠ KeyHTLCExpireQueue h b.
Proof.
  intros Hlen Heq. apply (f_equal length) in Heq.
  rewrite length_KeyHTLC, length_KeyHTLCExpireQueue in Heq. lia.
Qed.

Lemma SHA256_length (data : bytes) : length (SHA256 data) = 32%nat.
Proof. reflexivity. Qed.

(** *** Big-endian bytes *)

Lemma byte_of_Z_mod (v : Z) : byte_of_Z (v mod 256) = byte_of_Z v.
Proof. unfold byte_of_Z. by rewrite Z.mod_mod. Qed.

Lemma Uint64ToBigEndian_big_endian (v : Z) :
  Uint64ToBigEndian v = big_endian 8 v.
Proof.
  unfold Uint64ToBigEndian. simpl. rewrite !byte_of_Z_mod.
  rewrite !Z.shiftr_div_pow2 by lia.
  rewrite !Z.div_div by lia. reflexivity.
Qed.

(** The bytes tell the heights of the type [uint64] apart. *)
Lemma Z_of_byte_of_Z (v : Z) : Z_of_byte (byte_of_Z v) = v mod 256.
Proof.
  unfold Z_of_byte, byte_of_Z.
  assert (Hrange : 0 <= v mod 256 < 256) by (apply Z.mod_pos_bound; lia).
  destruct (Byte.of_N (Z.to_N (v mod 256))) as [b|] eqn:Hb.
  - apply Byte.to_of_N in Hb. lia.
  - apply Byte.of_N_None_iff in Hb. lia.
Qed.

Lemma big_endian_inj (n : nat) (a b : Z) :
  big_endian n a = big_endian n b →
  a mod 256 ^ Z.of_nat n = b mod 256 ^ Z.of_nat n.
Proof.
  revert a b. induction n as [|n IH]; intros a b Heq.
  - by rewrite !Z.mod_1_r.
  - simpl in Heq. apply app_inj_tail in Heq as [Hhigh Hlow].
    apply IH in Hhigh. apply (f_equal Z_of_byte) in Hlow.
    rewrite !Z_of_byte_of_Z, !Z.mod_mod in Hlow by lia.
    rewrite Nat2Z.inj_succ, Z.pow_succ_r by lia.
    rewrite !Z.rem_mul_r by lia. by rewrite Hhigh, Hlow.
Qed.

Lemma Uint64ToBigEndian_inj (a b : Z) :
  is_uint64 a → is_uint64 b →
  Uint64ToBigEndian a = Uint64ToBigEndian b → a = b.
Proof.
  unfold is_uint64. intros Ha Hb Heq.
  rewrite !Uint64ToBigEndian_big_endian in Heq. apply big_endian_inj in Heq.
  change (256 ^ Z.of_nat 8) with (2 ^ 64) in Heq.
  by rewrite !Z.mod_small in Heq.
Qed.

Lemma KeyHTLCExpireQueue_inj_height (h h' : Z) (d d' : bytes) :
  is_uint64 h → is_uint64 h' →
  KeyHTLCExpireQueue h d = KeyHTLCExpireQueue h' d' → h = h' ∧ d = d'.
Proof.
  intros Hh Hh' Heq.
  unfold KeyHTLCExpireQueue, KeyHTLCExpireQueueSubspace in Heq.
  rewrite <- !app_assoc in Heq. apply app_inv_head in Heq.
  apply app_inj_1 in Heq as [Hbe Hd]; [|reflexivity].
  split; [by apply Uint64ToBigEndian_inj|done].
Qed.

(** *** The order of the keys and the scan of the expiration queue *)

Lemma to_N_inj (x y : byte) : Byte.to_N x = Byte.to_N y → x = y.
Proof.
  intros Heq. apply (f_equal Byte.of_N) in Heq.
  rewrite !Byte.of_to_N in Heq. by injection Heq.
Qed.

Lemma bytes_le_total : Total bytes_le.
Proof.
  intros a. unfold bytes_le.
  induction a as [|x a IH]; intros [|y b]; simpl; auto.
  case_bool_decide as Hxy.
  - subst y. rewrite bool_decide_eq_true_2 by done. apply IH.
  - rewrite bool_decide_eq_false_2 by congruence.
    assert (Byte.to_N x ≠ Byte.to_N y) by (intros ?; by apply Hxy, to_N_inj).
    rewrite !N.ltb_lt. lia.
Qed.

Lemma cut_prefix_Some (p key d : bytes) :
  cut_prefix p key = Some d ↔ key = p ++ d.
Proof.
  unfold cut_prefix. case_bool_decide as Hp; split.
  - intros [= <-]. by rewrite <- Hp at 1; rewrite take_drop.
  - intros ->. by rewrite drop_app_length.
  - done.
  - intros ->. by rewrite take_app_length in Hp.
Qed.

Lemma elem_of_scan_expire_queue (st : gmap bytes bytes) (h : Z) (d : bytes) :
  d ∈ scan_expire_queue st h ↔ in_expire_queue st h d.
Proof.
  unfold scan_expire_queue, in_expire_queue, KeyHTLCExpireQueue.
  rewrite merge_sort_Permutation, list_elem_of_omap. split.
  - intros (key & Hkey & Hstrip). apply cut_prefix_Some in Hstrip as ->.
    apply list_elem_of_fmap in Hkey as ([key v] & -> & Hkv).
    apply elem_of_map_to_list in Hkv. simpl. eauto.
  - intros [v Hv]. eexists. split; [|by apply cut_prefix_Some].
    apply list_elem_of_fmap. exists (KeyHTLCExpireQueueSubspace h ++ d, v).
    split; [done|]. by apply elem_of_map_to_list.
Qed.

(** An entry written for one height does not show in the scan of
    another. *)
Lemma scan_expire_queue_insert_other (st : gmap bytes bytes) (h h' : Z)
    (d v d' : bytes) :
  is_uint64 h → is_uint64 h' → h ≠ h' →
  d' ∈ scan_expire_queue (<[KeyHTLCExpireQueue h d := v]> st) h'
  ↔ d' ∈ scan_expire_queue st h'.
Proof.
  intros Hh Hh' Hne. rewrite !elem_of_scan_expire_queue.
  unfold in_expire_queue. rewrite lookup_insert_ne; [done|].
  intros Heq. by apply KeyHTLCExpireQueue_inj_height in Heq as [? _].
Qed.

Lemma scan_expire_queue_Sorted (st : gmap bytes bytes) (h : Z) :
  Sorted bytes_le (scan_expire_queue st h).
Proof. apply Sorted_merge_sort, bytes_le_total. Qed.

Section keeper_facts.

Context {bk : BankKeeper} {cdc : Codec}.
Implicit Types (k : Keeper) (ctx : sdk_Context) (htlc : HTLC).

Lemma record_at_insert_eq (st : gmap bytes bytes) (shl : bytes) htlc :
  record_at (<[KeyHTLC shl := MarshalHTLC htlc]> st) shl = Some htlc.
Proof.
  unfold record_at. rewrite lookup_insert_eq. simpl.
  apply UnmarshalHTLC_MarshalHTLC.
Qed.

Lemma record_at_insert_ne (st : gmap bytes bytes) (key v shl : bytes) :
  key ≠ KeyHTLC shl → record_at (<[key := v]> st) shl = record_at st shl.
Proof. intros Hne. unfold record_at. by rewrite lookup_insert_ne. Qed.

Lemma GetHTLC_inr k ctx shl htlc ctx' :
  GetHTLC k shl ctx = Some (inr htlc, ctx') ↔
  record_at (store ctx) shl = Some htlc ∧ ctx' = ctx.
Proof.
  unfold_keeper. unfold record_at.
  destruct (store ctx !! KeyHTLC shl) as [bz|]; simpl.
  - destruct (UnmarshalHTLC bz) as [h|]; split.
    + by intros [= -> ->].
    + by intros [[= ->] ->].
    + done.
    + by intros [? _].
  - split; [done|by intros [? _]].
Qed.

(** *** What a call of [CreateHTLC] does *)

Lemma CreateHTLC_exists k htlc shl ctx :
  is_Some (store ctx !! KeyHTLC shl) →
  CreateHTLC k htlc shl ctx =
    Some (inl (ErrSecretHashLockAlreadyExists DefaultCodespace
                 ("the secret hash lock already exists: "
                  +:+ hex_EncodeToString shl)), ctx).
Proof.
  intros Hhas. unfold_keeper. simpl.
  rewrite bool_decide_eq_true_2 by done. reflexivity.
Qed.

Lemma CreateHTLC_inl k htlc shl ctx err ctx' :
  CreateHTLC k htlc shl ctx = Some (inl err, ctx') →
  (is_Some (store ctx !! KeyHTLC shl)
   ∧ err = ErrSecretHashLockAlreadyExists DefaultCodespace
             ("the secret hash lock already exists: "
              +:+ hex_EncodeToString shl)
   ∧ ctx' = ctx)
  ∨ (store ctx !! KeyHTLC shl = None
     ∧ (∃ e, err = ErrFromBank e)
     ∧ store ctx' = store ctx
     ∧ coinflow ctx' = coinflow ctx
     ∧ ∃ t, sent ctx' = sent ctx ++ [t]).
Proof.
  unfold_keeper. simpl. case_bool_decide as Hhas.
  - intros [= <- <-]. left. done.
  - apply eq_None_not_Some in Hhas.
    destruct (SendCoins _ _ _ _).2 as [e|] eqn:Hsend; intros [= <- <-].
    right. simpl. eauto 10.
Qed.

Lemma CreateHTLC_inr k htlc shl ctx tags ctx' :
  CreateHTLC k htlc shl ctx = Some (inr tags, ctx') →
  let htlcAddr := getHTLCAddress (Denom (OutAmount htlc)) in
  store ctx !! KeyHTLC shl = None
  ∧ (SendCoins (accounts ctx) (Sender htlc) htlcAddr [OutAmount htlc]).2 = None
  ∧ store ctx' =
      <[KeyHTLCExpireQueue (ExpireHeight htlc) shl := MarshalBytes shl]>
        (<[KeyHTLC shl := MarshalHTLC htlc]> (store ctx))
  ∧ sent ctx' = sent ctx ++ [ {| transfer_from := Sender htlc;
                                 transfer_to := htlcAddr;
                                 transfer_amount := [OutAmount htlc] |} ].
Proof.
  unfold_keeper. simpl. case_bool_decide as Hhas; [done|].
  apply eq_None_not_Some in Hhas.
  destruct (SendCoins _ _ _ _).2 as [e|] eqn:Hsend; [done|].
  intros [= <- <-]. simpl. done.
Qed.

Lemma CreateHTLC_succeeds k htlc shl ctx :
  store ctx !! KeyHTLC shl = None →
  (SendCoins (accounts ctx) (Sender htlc)
     (getHTLCAddress (Denom (OutAmount htlc))) [OutAmount htlc]).2 = None →
  ∃ tags ctx', CreateHTLC k htlc shl ctx = Some (inr tags, ctx').
Proof.
  intros Hnone Hsend. unfold_keeper. simpl.
  rewrite bool_decide_eq_false_2 by (rewrite Hnone; by intros [? ?]).
  rewrite Hsend. eauto.
Qed.

(** *** What a call of [ClaimHTLC] does *)

Lemma ClaimHTLC_inl k secret shl ctx err ctx' :
  ClaimHTLC k secret shl ctx = Some (inl err, ctx') →
  ((∀ e, err ≠ ErrFromBank e) ∧ ctx' = ctx)
  ∨ ((∃ e, err = ErrFromBank e)
     ∧ store ctx' = store ctx
     ∧ coinflow ctx' = coinflow ctx
     ∧ ∃ t, sent ctx' = sent ctx ++ [t]).
Proof.
  unfold_keeper. simpl.
  destruct (store ctx !! KeyHTLC shl) as [bz|]; simpl;
    [|intros [= <- <-]; by left].
  destruct (UnmarshalHTLC bz) as [htlc|]; [|done].
  destruct (negb (bool_decide (State htlc = StateOpen)));
    [intros [= <- <-]; by left|].
  destruct (negb (bytes_Equal _ _)); [intros [= <- <-]; by left|].
  destruct (SendCoins _ _ _ _).2 as [e|] eqn:Hsend; intros [= <- <-].
  right. simpl. eauto 10.
Qed.

Lemma ClaimHTLC_inr k secret shl ctx tags ctx' :
  ClaimHTLC k secret shl ctx = Some (inr tags, ctx') →
  ∃ htlc,
    let htlcAddr := getHTLCAddress (Denom (OutAmount htlc)) in
    record_at (store ctx) shl = Some htlc
    ∧ State htlc = StateOpen
    ∧ GetSecretHashLock k secret (Timestamp htlc) = shl
    ∧ (SendCoins (accounts ctx) htlcAddr (Receiver htlc) [OutAmount htlc]).2
      = None
    ∧ store ctx' =
        <[KeyHTLC shl :=
            MarshalHTLC (with_state (with_secret htlc secret) StateCompleted)]>
          (store ctx)
    ∧ sent ctx' = sent ctx ++ [ {| transfer_from := htlcAddr;
                                   transfer_to := Receiver htlc;
                                   transfer_amount := [OutAmount htlc] |} ].
Proof.
  unfold_keeper. unfold record_at. simpl.
  destruct (store ctx !! KeyHTLC shl) as [bz|]; simpl; [|done].
  destruct (UnmarshalHTLC bz) as [htlc|]; [|done].
  case_bool_decide as Hstate; simpl; [|done].
  unfold bytes_Equal. case_bool_decide as Hhash; simpl; [|done].
  destruct (SendCoins _ _ _ _).2 as [e|] eqn:Hsend; [done|].
  intros [= <- <-]. exists htlc. simpl. done.
Qed.


(** *** What a call of [RefundHTLC] does *)

Lemma RefundHTLC_inl k shl ctx err ctx' :
  RefundHTLC k shl ctx = Some (inl err, ctx') →
  ((∀ e, err ≠ ErrFromBank e) ∧ ctx' = ctx)
  ∨ ((∃ e, err = ErrFromBank e)
     ∧ store ctx' = store ctx
     ∧ coinflow ctx' = coinflow ctx
     ∧ ∃ t, sent ctx' = sent ctx ++ [t]).
Proof.
  unfold_keeper. simpl.
  destruct (store ctx !! KeyHTLC shl) as [bz|]; simpl;
    [|intros [= <- <-]; by left].
  destruct (UnmarshalHTLC bz) as [htlc|]; [|done].
  destruct (negb (bool_decide (State htlc = StateExpired)));
    [intros [= <- <-]; by left|].
  destruct (SendCoins _ _ _ _).2 as [e|] eqn:Hsend; intros [= <- <-].
  right. simpl. eauto 10.
Qed.

Lemma RefundHTLC_inr k shl ctx tags ctx' :
  RefundHTLC k shl ctx = Some (inr tags, ctx') →
  ∃ htlc,
    let htlcAddr := getHTLCAddress (Denom (OutAmount htlc)) in
    record_at (store ctx) shl = Some htlc
    ∧ State htlc = StateExpired
    ∧ (SendCoins (accounts ctx) htlcAddr (Sender htlc) [OutAmount htlc]).2
      = None
    ∧ store ctx' =
        <[KeyHTLC shl := MarshalHTLC (with_state htlc StateRefunded)]>
          (store ctx)
    ∧ sent ctx' = sent ctx ++ [ {| transfer_from := htlcAddr;
                                   transfer_to := Sender htlc;
                                   transfer_amount := [OutAmount htlc] |} ].
Proof.
  unfold_keeper. unfold record_at. simpl.
  destruct (store ctx !! KeyHTLC shl) as [bz|]; simpl; [|done].
  destruct (UnmarshalHTLC bz) as [htlc|]; [|done].
  case_bool_decide as Hstate; simpl; [|done].
  destruct (SendCoins _ _ _ _).2 as [e|] eqn:Hsend; [done|].
  intros [= <- <-]. exists htlc. simpl. done.
Qed.

Lemma RefundHTLC_not_expired k shl ctx htlc :
  record_at (store ctx) shl = Some htlc →
  State htlc ≠ StateExpired →
  RefundHTLC k shl ctx =
    Some (inl (ErrStateIsNotOpen (codespace k) "HTLC state is not Expired."),
          ctx).
Proof.
  unfold record_at. intros Hrec Hstate. unfold_keeper. simpl.
  destruct (store ctx !! KeyHTLC shl) as [bz|]; simpl in *; [|done].
  rewrite Hrec. by rewrite bool_decide_eq_false_2.
Qed.


(** *** Errors leave the store alone *)

Lemma run_inl k op ctx err ctx' :
  run k op ctx = Some (inl err, ctx') →
  ((∀ e, err ≠ ErrFromBank e) ∧ ctx' = ctx)
  ∨ ((∃ e, err = ErrFromBank e)
     ∧ store ctx' = store ctx
     ∧ coinflow ctx' = coinflow ctx
     ∧ ∃ t, sent ctx' = sent ctx ++ [t]).
Proof.
  destruct op as [htlc shl|secret shl|shl]; simpl.
  - intros Hrun. apply CreateHTLC_inl in Hrun as [(_ & -> & ->)|Hbank].
    + left. split; [intros e; discriminate|done].
    + right. tauto.
  - apply ClaimHTLC_inl.
  - apply RefundHTLC_inl.
Qed.

Lemma run_inl_store k op ctx err ctx' :
  run k op ctx = Some (inl err, ctx') → store ctx' = store ctx.
Proof.
  intros Hrun. apply run_inl in Hrun as [[_ ->]|(_ & Hstore & _)]; done.
Qed.

(** *** Keys are written, never deleted *)

Lemma run_store_grows k op ctx r ctx' (key : bytes) :
  run k op ctx = Some (r, ctx') →
  is_Some (store ctx !! key) → is_Some (store ctx' !! key).
Proof.
  intros Hrun Hkey. destruct r as [err|tags].
  { apply run_inl_store in Hrun. by rewrite Hrun. }
  destruct op as [htlc shl|secret shl|shl]; simpl in Hrun.
  - apply CreateHTLC_inr in Hrun as (_ & _ & -> & _).
    rewrite !lookup_insert_is_Some. destruct (decide (KeyHTLCExpireQueue (ExpireHeight htlc) shl = key)); [by left|].
    right. split; [done|].
    destruct (decide (KeyHTLC shl = key)); [by left|by right].
  - apply ClaimHTLC_inr in Hrun as (htlc & _ & _ & _ & _ & -> & _).
    rewrite lookup_insert_is_Some.
    destruct (decide (KeyHTLC shl = key)); [by left|by right].
  - apply RefundHTLC_inr in Hrun as (htlc & _ & _ & _ & -> & _).
    rewrite lookup_insert_is_Some.
    destruct (decide (KeyHTLC shl = key)); [by left|by right].
Qed.

(** *** The invariant on secrets, operation by operation *)

Lemma secrets_invariant_insert (n : nat) (st : gmap bytes bytes) shl htlc :
  secrets_invariant n st →
  (length shl = n → secret_iff_completed htlc) →
  secrets_invariant n (<[KeyHTLC shl := MarshalHTLC htlc]> st).
Proof.
  intros Hinv Hnew shl' htlc' Hlen Hrec.
  destruct (decide (shl' = shl)) as [->|Hne].
  - rewrite record_at_insert_eq in Hrec. injection Hrec as <-. auto.
  - rewrite record_at_insert_ne in Hrec
      by (intros Heq; by apply Hne, KeyHTLC_inj).
    by apply (Hinv shl').
Qed.

Lemma secrets_invariant_empty (n : nat) : secrets_invariant n ∅.
Proof. intros shl htlc _. unfold record_at. by rewrite lookup_empty. Qed.

Lemma CreateHTLC_keeps_secrets (n : nat) k htlc shl ctx tags ctx' :
  secrets_invariant n (store ctx) →
  CreateHTLC k htlc shl ctx = Some (inr tags, ctx') →
  length shl = n →
  secret_iff_completed htlc →
  secrets_invariant n (store ctx').
Proof.
  intros Hinv Hrun Hlen Hnew.
  apply CreateHTLC_inr in Hrun as (_ & _ & -> & _).
  intros shl' htlc' Hlen' Hrec.
  rewrite record_at_insert_ne in Hrec
    by (apply not_eq_sym, KeyHTLC_ne_KeyHTLCExpireQueue; congruence).
  revert shl' htlc' Hlen' Hrec. by apply secrets_invariant_insert.
Qed.

Lemma ClaimHTLC_keeps_secrets (n : nat) k secret shl ctx tags ctx' :
  secrets_invariant n (store ctx) →
  ClaimHTLC k secret shl ctx = Some (inr tags, ctx') →
  secret ≠ [] →
  secrets_invariant n (store ctx').
Proof.
  intros Hinv Hrun Hsecret.
  apply ClaimHTLC_inr in Hrun as (htlc & _ & _ & _ & _ & -> & _).
  apply secrets_invariant_insert; [done|]. intros _. by split.
Qed.

Lemma RefundHTLC_keeps_secrets (n : nat) k shl ctx tags ctx' :
  secrets_invariant n (store ctx) →
  RefundHTLC k shl ctx = Some (inr tags, ctx') →
  secrets_invariant n (store ctx').
Proof.
  intros Hinv Hrun.
  apply RefundHTLC_inr in Hrun as (htlc & Hrec & Hstate & _ & -> & _).
  apply secrets_invariant_insert; [done|]. intros Hlen.
  destruct (Hinv shl htlc Hlen Hrec) as [Hsecret _].
  split; simpl; [|done]. intros Hne. apply Hsecret in Hne. congruence.
Qed.


(** ** The claims *)



(** C3. [CreateHTLC] fails with [ErrSecretHashLockAlreadyExists] if and
    only if a value is already stored under the key of the hash lock;
    on that path the context is left as it was, so no call of
    [SendCoins] is made. *)
Theorem CreateHTLC_duplicate_iff k htlc secretHashLock ctx :
  ((∃ cs msg ctx',
      CreateHTLC k htlc secretHashLock ctx =
        Some (inl (ErrSecretHashLockAlreadyExists cs msg), ctx'))
   ↔ has_record (store ctx) secretHashLock)
  ∧ ∀ cs msg ctx',
      CreateHTLC k htlc secretHashLock ctx =
        Some (inl (ErrSecretHashLockAlreadyExists cs msg), ctx') →
      sent ctx' = sent ctx ∧ ctx' = ctx.
Proof.
  unfold has_record. split; [split|].
  - intros (cs & msg & ctx' & Hrun).
    apply CreateHTLC_inl in Hrun as [(? & _)|(_ & [e ?] & _)]; done.
  - intros Hhas. rewrite CreateHTLC_exists by done. eauto.
  - intros cs msg ctx' Hrun.
    apply CreateHTLC_inl in Hrun as [(_ & _ & ->)|(_ & [e ?] & _)]; done.
Qed.

(** C4. If [CreateHTLC], [ClaimHTLC] or [RefundHTLC] returns an error,
    the store, which holds the records and the expiration queue, is as
    it was before the call. An error that is not the bank keeper's is
    returned before any call of [SendCoins]: the whole context is as it
    was. The bank keeper's error follows one call of [SendCoins] and
    precedes every write. *)
Theorem error_leaves_store k op ctx err ctx' :
  run k op ctx = Some (inl err, ctx') →
  store ctx' = store ctx
  ∧ (∀ secretHashLock,
       record_at (store ctx') secretHashLock
       = record_at (store ctx) secretHashLock)
  ∧ (∀ expireHeight,
       scan_expire_queue (store ctx') expireHeight
       = scan_expire_queue (store ctx) expireHeight)
  ∧ ((∀ e, err ≠ ErrFromBank e) → ctx' = ctx)
  ∧ ((∃ e, err = ErrFromBank e) → ∃ t, sent ctx' = sent ctx ++ [t]).
Proof.
  intros Hrun. pose proof (run_inl_store _ _ _ _ _ Hrun) as Hstore.
  rewrite Hstore. repeat split; try done.
  - intros Hnot. apply run_inl in Hrun as [[_ ->]|([e ->] & _)]; [done|].
    by destruct (Hnot e).
  - intros [e ->].
    apply run_inl in Hrun as [[Hnot _]|(_ & _ & _ & Hsent)]; [|done].
    by destruct (Hnot e).
Qed.


(** C5 (amended). After a successful [CreateHTLC] the record stored at
    the hash lock is the record the caller supplied, unchanged: its
    state is the state the caller gave it, Open when the caller passes
    an Open record; and an entry of the expiration queue is stored
    under the key of the expire height of the record and the hash
    lock. *)
Theorem CreateHTLC_stores_supplied_record k htlc secretHashLock ctx tags ctx' :
  CreateHTLC k htlc secretHashLock ctx = Some (inr tags, ctx') →
  record_at (store ctx') secretHashLock = Some htlc
  ∧ (State htlc = StateOpen →
     ∃ htlc', record_at (store ctx') secretHashLock = Some htlc'
              ∧ State htlc' = StateOpen)
  ∧ store ctx' !! KeyHTLCExpireQueue (ExpireHeight htlc) secretHashLock
    = Some (MarshalBytes secretHashLock)
  ∧ in_expire_queue (store ctx') (ExpireHeight htlc) secretHashLock
  ∧ secretHashLock ∈ scan_expire_queue (store ctx') (ExpireHeight htlc).
Proof.
  intros Hrun. apply CreateHTLC_inr in Hrun as (_ & _ & Hstore & _).
  assert (Hrec : record_at (store ctx') secretHashLock = Some htlc).
  { rewrite Hstore, record_at_insert_ne
      by (by apply not_eq_sym, KeyHTLC_ne_KeyHTLCExpireQueue).
    apply record_at_insert_eq. }
  assert (Hentry : store ctx' !! KeyHTLCExpireQueue (ExpireHeight htlc)
                     secretHashLock = Some (MarshalBytes secretHashLock))
    by (rewrite Hstore; apply lookup_insert_eq).
  assert (in_expire_queue (store ctx') (ExpireHeight htlc) secretHashLock)
    by (unfold in_expire_queue; by rewrite Hentry).
  repeat split; try done.
  - intros Hopen. eauto.
  - by apply elem_of_scan_expire_queue.
Qed.

(** C6 (amended). Over the records stored under hash locks of one fixed
    length, the invariant that the secret of a record is non-empty iff
    its state is Completed is preserved by [RefundHTLC]; by [ClaimHTLC]
    when the secret supplied is not empty; and by [CreateHTLC] when the
    record supplied satisfies it (an Open record with no secret does)
    and the hash lock has that length. *)
Theorem secrets_invariant_preserved (n : nat) k op ctx r ctx' :
  secrets_invariant n (store ctx) →
  run k op ctx = Some (r, ctx') →
  keeps_secrets_invariant n op →
  secrets_invariant n (store ctx').
Proof.
  intros Hinv Hrun Hop. destruct r as [err|tags].
  { apply run_inl_store in Hrun. by rewrite Hrun. }
  destruct op as [htlc shl|secret shl|shl]; simpl in Hrun, Hop.
  - destruct Hop. by eapply CreateHTLC_keeps_secrets.
  - by eapply ClaimHTLC_keeps_secrets.
  - by eapply RefundHTLC_keeps_secrets.
Qed.


(** C8. A record that [SetHTLC] stores under a hash lock is the record
    that [GetHTLC] reads back there. After [AddHTLCToExpireQueue] the
    digest is among the digests a scan of the expiration queue yields
    at that height; after [DeleteHTLCFromExpireQueue] it is not, whether
    or not it was there before. *)
Theorem store_round_trip k ctx htlc expireHeight secretHashLock :
  GetHTLC k secretHashLock (after (SetHTLC k htlc secretHashLock) ctx)
    = Some (inr htlc, after (SetHTLC k htlc secretHashLock) ctx)
  ∧ secretHashLock ∈
      scan_expire_queue
        (store (after (AddHTLCToExpireQueue k expireHeight secretHashLock) ctx))
        expireHeight
  ∧ secretHashLock ∉
      scan_expire_queue
        (store (after (DeleteHTLCFromExpireQueue k expireHeight secretHashLock)
                  ctx))
        expireHeight.
Proof.
  split; [|split].
  - apply GetHTLC_inr. split; [|done]. apply record_at_insert_eq.
  - apply elem_of_scan_expire_queue. unfold in_expire_queue.
    unfold after. unfold_keeper. simpl. by rewrite lookup_insert_eq.
  - rewrite elem_of_scan_expire_queue. unfold in_expire_queue.
    unfold after. unfold_keeper. simpl. rewrite lookup_delete_eq.
    by intros [? ?].
Qed.

(** C9. When no value is stored under the key of the hash lock and the
    bank keeper carries out the transfer, [CreateHTLC] succeeds: nothing
    is asked of the hash lock, which need not be the hash lock of any
    secret. The store it leaves is the old one with the record and the
    entry of the expiration queue written. *)
Theorem CreateHTLC_accepts_any_hash_lock k htlc secretHashLock ctx :
  store ctx !! KeyHTLC secretHashLock = None →
  (SendCoins (accounts ctx) (Sender htlc)
     (getHTLCAddress (Denom (OutAmount htlc))) [OutAmount htlc]).2 = None →
  ∃ tags ctx',
    CreateHTLC k htlc secretHashLock ctx = Some (inr tags, ctx')
    ∧ store ctx' =
        <[KeyHTLCExpireQueue (ExpireHeight htlc) secretHashLock :=
            MarshalBytes secretHashLock]>
          (<[KeyHTLC secretHashLock := MarshalHTLC htlc]> (store ctx)).
Proof.
  intros Hnone Hsend.
  destruct (CreateHTLC_succeeds k htlc secretHashLock ctx Hnone Hsend)
    as (tags & ctx' & Hrun).
  exists tags, ctx'. split; [done|].
  by apply CreateHTLC_inr in Hrun as (_ & _ & ? & _).
Qed.

(** C10. After a successful [ClaimHTLC] the entry of the expiration
    queue under the expire height of the record and the hash lock is
    in the store as it was before the call. No call of [CreateHTLC],
    [ClaimHTLC] or [RefundHTLC] takes a key out of the store; a key
    goes only by [DeleteHTLCFromExpireQueue]. *)
Theorem ClaimHTLC_leaves_expire_queue k secret secretHashLock ctx tags ctx' :
  ClaimHTLC k secret secretHashLock ctx = Some (inr tags, ctx') →
  (∃ htlc,
     record_at (store ctx) secretHashLock = Some htlc
     ∧ store ctx' !! KeyHTLCExpireQueue (ExpireHeight htlc) secretHashLock
       = store ctx !! KeyHTLCExpireQueue (ExpireHeight htlc) secretHashLock
     ∧ (in_expire_queue (store ctx) (ExpireHeight htlc) secretHashLock →
        in_expire_queue (store ctx') (ExpireHeight htlc) secretHashLock))
  ∧ (∀ op c r c' (key : bytes),
       run k op c = Some (r, c') →
       is_Some (store c !! key) → is_Some (store c' !! key))
  ∧ (∀ c expireHeight lock,
       store (after (DeleteHTLCFromExpireQueue k expireHeight lock) c)
         !! KeyHTLCExpireQueue expireHeight lock = None).
Proof.
  intros Hrun. split; [|split].
  - apply ClaimHTLC_inr in Hrun as (htlc & Hrec & _ & _ & _ & -> & _).
    exists htlc. split; [done|].
    assert (Hsame : <[KeyHTLC secretHashLock :=
              MarshalHTLC (with_state (with_secret htlc secret) StateCompleted)]>
            (store ctx)
            !! KeyHTLCExpireQueue (ExpireHeight htlc) secretHashLock
            = store ctx !! KeyHTLCExpireQueue (ExpireHeight htlc) secretHashLock)
      by (apply lookup_insert_ne; by apply KeyHTLC_ne_KeyHTLCExpireQueue).
    split; [done|]. unfold in_expire_queue. by rewrite Hsame.
  - intros op c r c' key. apply run_store_grows.
  - intros c expireHeight lock. unfold after. unfold_keeper. simpl.
    apply lookup_delete_eq.
Qed.

End keeper_facts.

(** A call that answers leaves the context [after] names. *)
Lemma after_reply {bk : BankKeeper} {A : Type} (m : M A) (ctx : sdk_Context)
    (r : A) :
  fst <$> m ctx = Some r → m ctx = Some (r, after m ctx).
Proof.
  unfold after. destruct (m ctx) as [[a ctx']|]; simpl; [|discriminate].
  by intros [= ->].
Qed.

(** ** SHA-256 on the test vectors of the standard *)

Example Sha256_constants :
  length Sha256.K = 64%nat
  ∧ nth 0 Sha256.K 0 = 0x428a2f98
  ∧ nth 63 Sha256.K 0 = 0xc67178f2
  ∧ Sha256.ra Sha256.H0 = 0x6a09e667.
Proof. vm_compute. repeat split. Qed.

Example SHA256_empty :
  hex_EncodeToString (SHA256 []) =
  "e3b0c44298fc1c149afbf4c8996fb92427ae41e4649b934ca495991b7852b855"%string.
Proof. vm_compute. reflexivity. Qed.

Example SHA256_abc :
  hex_EncodeToString (SHA256 (bytes_of_string "abc")) =
  "ba7816bf8f01cfea414140de5dae2223b00361a396177a9cb410ff61f20015ad"%string.
Proof. vm_compute. reflexivity. Qed.

Example SHA256_two_blocks :
  hex_EncodeToString
    (SHA256 (bytes_of_string
       "abcdbcdecdefdefgefghfghighijhijkijkljklmklmnlmnomnopnopq")) =
  "248d6a61d20638b8e5c026930c3e6039a33ce45964ff2167f6ecedd419db06c1"%string.
Proof. vm_compute. reflexivity. Qed.

(** ** The contract of [Scenario], step by step *)

Lemma Scenario_create :
  CreateHTLC (bk := ledger) Scenario.k Scenario.htlc Scenario.hashLock
    Scenario.ctx0
  = Some (inr (Scenario.createTags Scenario.hashLock), Scenario.ctx1).
Proof. unfold Scenario.ctx1. apply after_reply. vm_compute. reflexivity. Qed.

Lemma Scenario_claim :
  ClaimHTLC (bk := ledger) Scenario.k Scenario.secret Scenario.hashLock
    Scenario.ctx1
  = Some (inr (Scenario.claimTags Scenario.secret Scenario.hashLock),
          Scenario.ctx2).
Proof. unfold Scenario.ctx2. apply after_reply. vm_compute. reflexivity. Qed.

Lemma Scenario_claim_no_escrow :
  ClaimHTLC (bk := ledger) Scenario.k Scenario.secret Scenario.hashLock
    Scenario.ctx1_no_escrow
  = Some (inl (ErrFromBank InsufficientFunds),
          after (ClaimHTLC Scenario.k Scenario.secret Scenario.hashLock)
            Scenario.ctx1_no_escrow).
Proof. apply after_reply. vm_compute. reflexivity. Qed.

Lemma Scenario_record :
  record_at (store Scenario.ctx1) Scenario.hashLock = Some Scenario.htlc.
Proof. vm_compute. reflexivity. Qed.


Lemma Scenario_create_completed :
  CreateHTLC (bk := ledger) Scenario.k Scenario.htlc_completed Scenario.hashLock
    Scenario.ctx0
  = Some (inr (Scenario.createTags Scenario.hashLock),
          after (CreateHTLC Scenario.k Scenario.htlc_completed Scenario.hashLock)
            Scenario.ctx0).
Proof. apply after_reply. vm_compute. reflexivity. Qed.

Lemma Scenario_create_empty :
  CreateHTLC (bk := ledger) Scenario.k Scenario.htlc Scenario.emptyLock
    Scenario.ctx0
  = Some (inr (Scenario.createTags Scenario.emptyLock), Scenario.ctx1_empty).
Proof. unfold Scenario.ctx1_empty. apply after_reply. vm_compute. reflexivity. Qed.

Lemma Scenario_claim_empty :
  ClaimHTLC (bk := ledger) Scenario.k [] Scenario.emptyLock Scenario.ctx1_empty
  = Some (inr (Scenario.claimTags [] Scenario.emptyLock), Scenario.ctx2_empty).
Proof. unfold Scenario.ctx2_empty. apply after_reply. vm_compute. reflexivity. Qed.

(** The two runs of the contract to the end: claimed, the 100 atom are
    bob's and a second claim finds the contract not Open; refunded after
    expiry, they are alice's again and a second refund finds the contract
    not Expired. *)
Example Scenario_claimed :
  State <$> record_at (store Scenario.ctx2) Scenario.hashLock
  = Some StateCompleted
  ∧ balance (accounts Scenario.ctx2) Scenario.bob "atom" = 100
  ∧ balance (accounts Scenario.ctx2) (getHTLCAddress "atom") "atom" = 0
  ∧ fst <$> ClaimHTLC (bk := ledger) Scenario.k Scenario.secret
              Scenario.hashLock Scenario.ctx2
    = Some (inl (ErrStateIsNotOpen "htlc" "HTLC state is not Open.")).
Proof.
  split; [vm_compute; reflexivity|].
  split; [vm_compute; reflexivity|].
  split; vm_compute; reflexivity.
Qed.

Example Scenario_refunded :
  State <$> record_at (store Scenario.ctx2_refunded) Scenario.hashLock
  = Some StateRefunded
  ∧ balance (accounts Scenario.ctx2_refunded) Scenario.alice "atom" = 100
  ∧ balance (accounts Scenario.ctx2_refunded) (getHTLCAddress "atom") "atom"
    = 0
  ∧ fst <$> RefundHTLC (bk := ledger) Scenario.k Scenario.hashLock
              Scenario.ctx2_refunded
    = Some (inl (ErrStateIsNotOpen "htlc" "HTLC state is not Expired.")).
Proof.
  split; [vm_compute; reflexivity|].
  split; [vm_compute; reflexivity|].
  split; vm_compute; reflexivity.
Qed.

Example Scenario_wrong_secret :
  fst <$> ClaimHTLC (bk := ledger) Scenario.k (bytes_of_string "open barley")
            Scenario.hashLock Scenario.ctx1
  = Some (inl (ErrInvalidSecret "htlc"
                 "invalid secret: 6f70656e206261726c6579")).
Proof. vm_compute. reflexivity. Qed.

(** ** The claims on the contract of [Scenario] *)




Lemma CreateHTLC_duplicate_iff_witness :
  has_record (store Scenario.ctx1) Scenario.hashLock
  ∧ ∃ cs msg ctx',
      CreateHTLC (bk := ledger) Scenario.k Scenario.htlc Scenario.hashLock
        Scenario.ctx1
      = Some (inl (ErrSecretHashLockAlreadyExists cs msg), ctx').
Proof.
  assert (Hhas : has_record (store Scenario.ctx1) Scenario.hashLock)
    by (vm_compute; eexists; reflexivity).
  split; [exact Hhas|].
  exact (proj2 (proj1 (CreateHTLC_duplicate_iff (bk := ledger) Scenario.k
                         Scenario.htlc Scenario.hashLock Scenario.ctx1)) Hhas).
Defined.

Lemma error_leaves_store_witness :
  run (bk := ledger) Scenario.k (Claim Scenario.secret Scenario.hashLock)
    Scenario.ctx1_no_escrow
  = Some (inl (ErrFromBank InsufficientFunds),
          after (ClaimHTLC Scenario.k Scenario.secret Scenario.hashLock)
            Scenario.ctx1_no_escrow)
  ∧ store (after (ClaimHTLC Scenario.k Scenario.secret Scenario.hashLock)
             Scenario.ctx1_no_escrow)
    = store Scenario.ctx1_no_escrow.
Proof.
  split; [exact Scenario_claim_no_escrow|].
  exact (proj1 (error_leaves_store (bk := ledger) Scenario.k
                  (Claim Scenario.secret Scenario.hashLock)
                  Scenario.ctx1_no_escrow _ _ Scenario_claim_no_escrow)).
Defined.

(** C5, as stated, fails for a record that the caller does not hand over
    as Open: [CreateHTLC] succeeds and the record stored at the hash lock
    is Completed. *)
Lemma CreateHTLC_stores_completed_record :
  CreateHTLC (bk := ledger) Scenario.k Scenario.htlc_completed Scenario.hashLock
    Scenario.ctx0
  = Some (inr (Scenario.createTags Scenario.hashLock),
          after (CreateHTLC Scenario.k Scenario.htlc_completed Scenario.hashLock)
            Scenario.ctx0)
  ∧ State <$> record_at
                (store (after (CreateHTLC Scenario.k Scenario.htlc_completed
                                 Scenario.hashLock) Scenario.ctx0))
                Scenario.hashLock
    = Some StateCompleted
  ∧ StateCompleted ≠ StateOpen.
Proof.
  split; [exact Scenario_create_completed|].
  split; [vm_compute; reflexivity|].
  discriminate.
Qed.

Lemma CreateHTLC_stores_supplied_record_witness :
  CreateHTLC (bk := ledger) Scenario.k Scenario.htlc Scenario.hashLock
    Scenario.ctx0
  = Some (inr (Scenario.createTags Scenario.hashLock), Scenario.ctx1)
  ∧ record_at (store Scenario.ctx1) Scenario.hashLock = Some Scenario.htlc
  ∧ in_expire_queue (store Scenario.ctx1) (ExpireHeight Scenario.htlc)
      Scenario.hashLock.
Proof.
  split; [exact Scenario_create|].
  destruct (CreateHTLC_stores_supplied_record (bk := ledger) _ _ _ _ _ _
              Scenario_create) as (Hrec & _ & _ & Hin & _).
  split; [exact Hrec|exact Hin].
Defined.

(** C6, as stated, fails twice. A contract created Open and with no secret
    under the hash lock of the empty secret satisfies the invariant; the
    claim with the empty secret succeeds and leaves a Completed record
    with an empty secret. And [CreateHTLC] stores a record that breaks the
    invariant when it is handed one. *)
Lemma secrets_invariant_broken :
  (secrets_invariant 32 (store Scenario.ctx0)
   ∧ CreateHTLC (bk := ledger) Scenario.k Scenario.htlc Scenario.emptyLock
       Scenario.ctx0
     = Some (inr (Scenario.createTags Scenario.emptyLock), Scenario.ctx1_empty)
   ∧ secrets_invariant 32 (store Scenario.ctx1_empty)
   ∧ ClaimHTLC (bk := ledger) Scenario.k [] Scenario.emptyLock
       Scenario.ctx1_empty
     = Some (inr (Scenario.claimTags [] Scenario.emptyLock), Scenario.ctx2_empty)
   ∧ ¬ secrets_invariant 32 (store Scenario.ctx2_empty))
  ∧ (secrets_invariant 32 (store Scenario.ctx0)
     ∧ CreateHTLC (bk := ledger) Scenario.k Scenario.htlc_completed
         Scenario.hashLock Scenario.ctx0
       = Some (inr (Scenario.createTags Scenario.hashLock),
               after (CreateHTLC Scenario.k Scenario.htlc_completed
                        Scenario.hashLock) Scenario.ctx0)
     ∧ ¬ secrets_invariant 32
           (store (after (CreateHTLC Scenario.k Scenario.htlc_completed
                            Scenario.hashLock) Scenario.ctx0))).
Proof.
  assert (Hempty : secrets_invariant 32 (store Scenario.ctx0))
    by apply secrets_invariant_empty.
  assert (Hlen : ∀ secret,
             length (GetSecretHashLock Scenario.k secret Scenario.timestamp)
             = 32%nat) by (intros secret; apply SHA256_length).
  split; [split; [exact Hempty|split; [exact Scenario_create_empty|split;
            [|split; [exact Scenario_claim_empty|]]]]
         |split; [exact Hempty|split; [exact Scenario_create_completed|]]].
  - apply (CreateHTLC_keeps_secrets (bk := ledger) 32 Scenario.k Scenario.htlc
             Scenario.emptyLock Scenario.ctx0
             (Scenario.createTags Scenario.emptyLock) Scenario.ctx1_empty
             Hempty Scenario_create_empty (Hlen [])).
    split; [intros Hne; by destruct Hne|discriminate].
  - intros Hinv.
    assert (Hrec : record_at (store Scenario.ctx2_empty) Scenario.emptyLock
                   = Some (with_state (with_secret Scenario.htlc [])
                             StateCompleted))
      by (vm_compute; reflexivity).
    destruct (Hinv _ _ (Hlen []) Hrec) as [_ Hsecret].
    by apply Hsecret.
  - intros Hinv.
    assert (Hrec : record_at
                     (store (after (CreateHTLC Scenario.k Scenario.htlc_completed
                                      Scenario.hashLock) Scenario.ctx0))
                     Scenario.hashLock
                   = Some Scenario.htlc_completed)
      by (vm_compute; reflexivity).
    destruct (Hinv _ _ (Hlen Scenario.secret) Hrec) as [_ Hsecret].
    by apply Hsecret.
Qed.

Lemma secrets_invariant_preserved_witness :
  secrets_invariant 32 (store Scenario.ctx0)
  ∧ run (bk := ledger) Scenario.k (Create Scenario.htlc Scenario.hashLock)
      Scenario.ctx0
    = Some (inr (Scenario.createTags Scenario.hashLock), Scenario.ctx1)
  ∧ keeps_secrets_invariant 32 (Create Scenario.htlc Scenario.hashLock)
  ∧ secrets_invariant 32 (store Scenario.ctx1).
Proof.
  assert (Hinv : secrets_invariant 32 (store Scenario.ctx0))
    by apply secrets_invariant_empty.
  assert (Hop : keeps_secrets_invariant 32
                  (Create Scenario.htlc Scenario.hashLock)).
  { split; [apply SHA256_length|].
    split; [intros Hne; by destruct Hne|discriminate]. }
  split; [exact Hinv|]. split; [exact Scenario_create|]. split; [exact Hop|].
  exact (secrets_invariant_preserved (bk := ledger) 32 Scenario.k
           (Create Scenario.htlc Scenario.hashLock) Scenario.ctx0 _ _
           Hinv Scenario_create Hop).
Defined.


Lemma store_round_trip_witness :
  GetHTLC (bk := ledger) Scenario.k Scenario.hashLock
    (after (SetHTLC Scenario.k Scenario.htlc Scenario.hashLock) Scenario.ctx0)
  = Some (inr Scenario.htlc,
          after (SetHTLC Scenario.k Scenario.htlc Scenario.hashLock)
            Scenario.ctx0)
  ∧ scan_expire_queue (store Scenario.ctx1) (ExpireHeight Scenario.htlc)
    = [Scenario.hashLock]
  ∧ Scenario.hashLock ∉
      scan_expire_queue
        (store (after (DeleteHTLCFromExpireQueue Scenario.k
                         (ExpireHeight Scenario.htlc) Scenario.hashLock)
                  Scenario.ctx1))
        (ExpireHeight Scenario.htlc).
Proof.
  split; [|split].
  - exact (proj1 (store_round_trip (bk := ledger) Scenario.k Scenario.ctx0
                    Scenario.htlc (ExpireHeight Scenario.htlc)
                    Scenario.hashLock)).
  - vm_compute. reflexivity.
  - exact (proj2 (proj2 (store_round_trip (bk := ledger) Scenario.k
                           Scenario.ctx1 Scenario.htlc
                           (ExpireHeight Scenario.htlc) Scenario.hashLock))).
Defined.

(** A digest of another length than 32 bytes is the hash lock of no
    secret. *)
Lemma no_secret_for_other_length (k : Keeper) (lock : bytes) :
  length lock ≠ 32%nat →
  ∀ secret timestamp, GetSecretHashLock k secret timestamp ≠ lock.
Proof.
  intros Hlen secret timestamp Heq. apply Hlen. rewrite <- Heq.
  apply SHA256_length.
Qed.

Lemma CreateHTLC_accepts_any_hash_lock_witness :
  (∀ secret timestamp,
     GetSecretHashLock Scenario.k secret timestamp ≠ Scenario.notALock)
  ∧ store Scenario.ctx0 !! KeyHTLC Scenario.notALock = None
  ∧ (SendCoins (BankKeeper := ledger) (accounts Scenario.ctx0)
       (Sender Scenario.htlc)
       (getHTLCAddress (Denom (OutAmount Scenario.htlc)))
       [OutAmount Scenario.htlc]).2 = None
  ∧ ∃ tags ctx',
      CreateHTLC (bk := ledger) Scenario.k Scenario.htlc Scenario.notALock
        Scenario.ctx0 = Some (inr tags, ctx').
Proof.
  split; [apply no_secret_for_other_length; vm_compute; lia|].
  assert (Hnone : store Scenario.ctx0 !! KeyHTLC Scenario.notALock = None)
    by (vm_compute; reflexivity).
  assert (Hsend : (SendCoins (BankKeeper := ledger) (accounts Scenario.ctx0)
                     (Sender Scenario.htlc)
                     (getHTLCAddress (Denom (OutAmount Scenario.htlc)))
                     [OutAmount Scenario.htlc]).2 = None)
    by (vm_compute; reflexivity).
  split; [exact Hnone|]. split; [exact Hsend|].
  destruct (CreateHTLC_accepts_any_hash_lock (bk := ledger) Scenario.k
              Scenario.htlc Scenario.notALock Scenario.ctx0 Hnone Hsend)
    as (tags & ctx' & Hrun & _).
  exists tags, ctx'. exact Hrun.
Defined.

Lemma ClaimHTLC_leaves_expire_queue_witness :
  ClaimHTLC (bk := ledger) Scenario.k Scenario.secret Scenario.hashLock
    Scenario.ctx1
  = Some (inr (Scenario.claimTags Scenario.secret Scenario.hashLock),
          Scenario.ctx2)
  ∧ in_expire_queue (store Scenario.ctx1) (ExpireHeight Scenario.htlc)
      Scenario.hashLock
  ∧ in_expire_queue (store Scenario.ctx2) (ExpireHeight Scenario.htlc)
      Scenario.hashLock.
Proof.
  assert (Hin : in_expire_queue (store Scenario.ctx1)
                  (ExpireHeight Scenario.htlc) Scenario.hashLock)
    by (vm_compute; eexists; reflexivity).
  split; [exact Scenario_claim|]. split; [exact Hin|].
  destruct (ClaimHTLC_leaves_expire_queue (bk := ledger) _ _ _ _ _ _
              Scenario_claim) as [(htlc & Hrec & _ & Hstill) _].
  rewrite Scenario_record in Hrec. injection Hrec as <-.
  exact (Hstill Hin).
Defined.

(** * More facts about the keeper *)

Section keeper_more.

Context {bk : BankKeeper} {cdc : Codec}.
Implicit Types (k : Keeper) (ctx : sdk_Context) (htlc : HTLC).

(** ** The errors of [GetHTLC], [ClaimHTLC] and [RefundHTLC] *)

(** X1. Under a hash lock with no value in the store, [GetHTLC], [ClaimHTLC]
    with any secret, and [RefundHTLC] all return
    [ErrInvalidSecretHashLock] with the hash lock in hexadecimal, and
    leave the context as it was. *)
Theorem unknown_hash_lock k secretHashLock ctx :
  store ctx !! KeyHTLC secretHashLock = None →
  let err := ErrInvalidSecretHashLock (codespace k)
               ("invalid secret hash lock: "
                +:+ hex_EncodeToString secretHashLock) in
  GetHTLC k secretHashLock ctx = Some (inl err, ctx)
  ∧ (∀ secret, ClaimHTLC k secret secretHashLock ctx = Some (inl err, ctx))
  ∧ RefundHTLC k secretHashLock ctx = Some (inl err, ctx).
Proof.
  intros Hnone. unfold_keeper. simpl. rewrite Hnone. simpl. done.
Qed.

Lemma ClaimHTLC_refuses_not_open k secret lock ctx htlc :
  record_at (store ctx) lock = Some htlc →
  State htlc ≠ StateOpen →
  ClaimHTLC k secret lock ctx =
    Some (inl (ErrStateIsNotOpen (codespace k) "HTLC state is not Open."), ctx).
Proof.
  unfold record_at. intros Hrec Hstate. unfold_keeper. simpl.
  destruct (store ctx !! KeyHTLC lock) as [bz|]; simpl in *; [|done].
  rewrite Hrec. by rewrite bool_decide_eq_false_2.
Qed.

(** X2. [ClaimHTLC] on a record that is not Open returns [ErrStateIsNotOpen]
    and leaves the context as it was, whatever the secret: the state is
    looked at before the secret, so the secret of the hash lock is
    refused too. *)
Theorem ClaimHTLC_not_open k secretHashLock ctx htlc :
  record_at (store ctx) secretHashLock = Some htlc →
  State htlc ≠ StateOpen →
  ∀ secret,
    ClaimHTLC k secret secretHashLock ctx =
      Some (inl (ErrStateIsNotOpen (codespace k) "HTLC state is not Open."),
            ctx)
    ∧ ∀ tags ctx',
        ClaimHTLC k secret secretHashLock ctx ≠ Some (inr tags, ctx').
Proof.
  intros Hrec Hstate secret.
  rewrite (ClaimHTLC_refuses_not_open _ secret _ _ _ Hrec Hstate).
  split; [done|]. intros tags ctx'. discriminate.
Qed.



(** ** What an operation writes *)

Lemma run_frame k op ctx r ctx' (key : bytes) :
  run k op ctx = Some (r, ctx') →
  key ∉ op_keys op →
  store ctx' !! key = store ctx !! key.
Proof.
  intros Hrun Hkey. destruct r as [err|tags].
  { apply run_inl_store in Hrun. by rewrite Hrun. }
  destruct op as [htlc lock|secret lock|lock]; simpl in Hrun, Hkey;
    apply not_elem_of_cons in Hkey as [Hrecord Hkey].
  - apply not_elem_of_cons in Hkey as [Hentry _].
    apply CreateHTLC_inr in Hrun as (_ & _ & -> & _).
    by rewrite !lookup_insert_ne by congruence.
  - apply ClaimHTLC_inr in Hrun as (htlc & _ & _ & _ & _ & -> & _).
    by rewrite lookup_insert_ne by congruence.
  - apply RefundHTLC_inr in Hrun as (htlc & _ & _ & _ & -> & _).
    by rewrite lookup_insert_ne by congruence.
Qed.

Lemma KeyHTLC_not_in_op_keys (op : Operation) (lock : bytes) :
  lock ≠ op_lock op →
  length lock = length (op_lock op) →
  KeyHTLC lock ∉ op_keys op.
Proof.
  intros Hne Hlen.
  assert (Hkey : KeyHTLC lock ≠ KeyHTLC (op_lock op))
    by (intros Heq; by apply Hne, KeyHTLC_inj).
  destruct op as [htlc l|secret l|l]; simpl in *;
    rewrite !not_elem_of_cons; split_and!; try done;
    try apply not_elem_of_nil.
  by apply KeyHTLC_ne_KeyHTLCExpireQueue.
Qed.

Lemma run_record_frame k op ctx r ctx' (lock : bytes) :
  run k op ctx = Some (r, ctx') →
  lock ≠ op_lock op →
  length lock = length (op_lock op) →
  record_at (store ctx') lock = record_at (store ctx) lock.
Proof.
  intros Hrun Hne Hlen. unfold record_at.
  by rewrite (run_frame _ _ _ _ _ _ Hrun)
    by by apply KeyHTLC_not_in_op_keys.
Qed.


(** ** How a record moves on *)

Lemma run_record_step k op ctx r ctx' (lock : bytes) htlc :
  run k op ctx = Some (r, ctx') →
  length lock = length (op_lock op) →
  record_at (store ctx) lock = Some htlc →
  record_at (store ctx') lock = Some htlc
  ∨ (∃ secret tags,
       op = Claim secret lock ∧ r = inr tags ∧ State htlc = StateOpen
       ∧ GetSecretHashLock k secret (Timestamp htlc) = lock
       ∧ record_at (store ctx') lock
         = Some (with_state (with_secret htlc secret) StateCompleted))
  ∨ (∃ tags,
       op = Refund lock ∧ r = inr tags ∧ State htlc = StateExpired
       ∧ record_at (store ctx') lock = Some (with_state htlc StateRefunded)).
Proof.
  intros Hrun Hlen Hrec. destruct r as [err|tags].
  { left. apply run_inl_store in Hrun. by rewrite Hrun. }
  destruct (decide (lock = op_lock op)) as [->|Hne];
    [|left; by rewrite (run_record_frame _ _ _ _ _ _ Hrun)].
  destruct op as [new l|secret l|l]; simpl in *.
  - apply CreateHTLC_inr in Hrun as (Hnone & _).
    unfold record_at in Hrec. by rewrite Hnone in Hrec.
  - right. left.
    apply ClaimHTLC_inr in Hrun as (old & Hold & ? & ? & _ & -> & _).
    rewrite Hrec in Hold. injection Hold as <-.
    exists secret, tags. by rewrite record_at_insert_eq.
  - right. right.
    apply RefundHTLC_inr in Hrun as (old & Hold & ? & _ & -> & _).
    rewrite Hrec in Hold. injection Hold as <-.
    exists tags. by rewrite record_at_insert_eq.
Qed.


(** ** Completed and refunded records *)


(** X7. Once the record under a hash lock is Completed or Refunded, every
    operation on that hash lock returns an error and leaves the context as
    it was: [CreateHTLC] finds the hash lock taken, [ClaimHTLC] the
    record not Open, [RefundHTLC] the record not Expired. No coins move
    for it again. *)
Theorem terminal_record_refuses k op ctx htlc :
  record_at (store ctx) (op_lock op) = Some htlc →
  terminal htlc →
  ∃ err,
    run k op ctx = Some (inl err, ctx)
    ∧ match op with
      | Create _ _ => ∃ cs msg, err = ErrSecretHashLockAlreadyExists cs msg
      | Claim _ _ =>
          err = ErrStateIsNotOpen (codespace k) "HTLC state is not Open."
      | Refund _ =>
          err = ErrStateIsNotOpen (codespace k) "HTLC state is not Expired."
      end.
Proof.
  intros Hrec Hterminal.
  destruct op as [new lock|secret lock|lock]; simpl in *.
  - eexists. split; [|eauto]. apply CreateHTLC_exists. unfold record_at in Hrec.
    destruct (store ctx !! KeyHTLC lock); [done|discriminate].
  - eexists. split; [|done].
    apply (ClaimHTLC_refuses_not_open k secret lock ctx htlc Hrec).
    destruct Hterminal as [-> | ->]; discriminate.
  - eexists. split; [|done].
    apply (RefundHTLC_not_expired k lock ctx htlc Hrec).
    destruct Hterminal as [-> | ->]; discriminate.
Qed.

(** ** At most one payout *)





(** ** From creation to claim *)

Lemma CreateHTLC_record k htlc lock ctx tags ctx' :
  CreateHTLC k htlc lock ctx = Some (inr tags, ctx') →
  record_at (store ctx') lock = Some htlc.
Proof.
  intros Hrun. apply CreateHTLC_inr in Hrun as (_ & _ & -> & _).
  rewrite record_at_insert_ne
    by (by apply not_eq_sym, KeyHTLC_ne_KeyHTLCExpireQueue).
  apply record_at_insert_eq.
Qed.



(** X13. [ClaimHTLC] succeeds only on a hash lock of 32 bytes, the length of a
    SHA-256 digest: a contract that [CreateHTLC] took under a hash lock
    of another length can never be claimed. *)
Theorem ClaimHTLC_needs_digest_length k secret secretHashLock ctx tags ctx' :
  ClaimHTLC k secret secretHashLock ctx = Some (inr tags, ctx') →
  length secretHashLock = 32%nat.
Proof.
  intros Hrun. apply ClaimHTLC_inr in Hrun as (htlc & _ & _ & <- & _).
  apply SHA256_length.
Qed.

(** ** Codespaces, coin flows *)



(** X15. An operation that succeeds makes one call of [SendCoins], which the
    bank keeper carries out, and appends one coin flow tag that names the
    same sender, receiver and coin, with the flow of the operation; the
    accounts are as the bank keeper left them. An operation that returns
    an error appends no coin flow tag. *)
Theorem success_tags_one_coin_flow k op ctx r ctx' :
  run k op ctx = Some (r, ctx') →
  match r with
  | inl _ => coinflow ctx' = coinflow ctx
  | inr _ =>
      ∃ from to amount,
        (SendCoins (accounts ctx) from to [amount]).2 = None
        ∧ accounts ctx' = (SendCoins (accounts ctx) from to [amount]).1
        ∧ sent ctx' = sent ctx ++ [ {| transfer_from := from;
                                       transfer_to := to;
                                       transfer_amount := [amount] |} ]
        ∧ coinflow ctx' = coinflow ctx ++ [ {| flow_from := from;
                                               flow_to := to;
                                               flow_amount := amount;
                                               flow_type := op_flow op;
                                               flow_desc := "" |} ]
  end.
Proof.
  intros Hrun. destruct r as [err|tags].
  { apply run_inl in Hrun as [[_ ->]|(_ & _ & ? & _)]; done. }
  destruct op as [htlc lock|secret lock|lock]; simpl in Hrun;
    revert Hrun; unfold_keeper; simpl.
  - case_bool_decide; [done|].
    destruct (SendCoins _ _ _ _).2 as [e|] eqn:Hsend; [done|].
    intros [= <- <-]. simpl. eauto 10.
  - destruct (store ctx !! KeyHTLC lock) as [bz|]; simpl; [|done].
    destruct (UnmarshalHTLC bz) as [htlc|]; [|done].
    destruct (negb (bool_decide _)); [done|].
    destruct (negb (bytes_Equal _ _)); [done|].
    destruct (SendCoins _ _ _ _).2 as [e|] eqn:Hsend; [done|].
    intros [= <- <-]. simpl. eauto 10.
  - destruct (store ctx !! KeyHTLC lock) as [bz|]; simpl; [|done].
    destruct (UnmarshalHTLC bz) as [htlc|]; [|done].
    destruct (negb (bool_decide _)); [done|].
    destruct (SendCoins _ _ _ _).2 as [e|] eqn:Hsend; [done|].
    intros [= <- <-]. simpl. eauto 10.
Qed.

(** ** The secret of a completed record *)

Lemma secrets_open_insert (n : nat) k (st : gmap bytes bytes)
    (lock : bytes) htlc :
  secrets_open n k st →
  (length lock = n → completed_secret_opens k lock htlc) →
  secrets_open n k (<[KeyHTLC lock := MarshalHTLC htlc]> st).
Proof.
  intros Hinv Hnew lock' htlc' Hlen Hrec.
  destruct (decide (lock' = lock)) as [->|Hne].
  - rewrite record_at_insert_eq in Hrec. injection Hrec as <-. auto.
  - rewrite record_at_insert_ne in Hrec
      by (intros Heq; by apply Hne, KeyHTLC_inj).
    by apply (Hinv lock').
Qed.

Lemma run_keeps_secrets_open (n : nat) k op ctx r ctx' :
  secrets_open n k (store ctx) →
  run k op ctx = Some (r, ctx') →
  keeps_secrets_open n k op →
  secrets_open n k (store ctx').
Proof.
  intros Hinv Hrun Hop. destruct r as [err|tags].
  { apply run_inl_store in Hrun. by rewrite Hrun. }
  destruct op as [htlc lock|secret lock|lock]; simpl in Hrun, Hop.
  - destruct Hop as [Hlen Hnew].
    apply CreateHTLC_inr in Hrun as (_ & _ & -> & _).
    intros lock' htlc' Hlen' Hrec.
    rewrite record_at_insert_ne in Hrec
      by (apply not_eq_sym, KeyHTLC_ne_KeyHTLCExpireQueue; congruence).
    revert lock' htlc' Hlen' Hrec. by apply secrets_open_insert.
  - apply ClaimHTLC_inr in Hrun as (htlc & _ & _ & Hhash & _ & -> & _).
    apply secrets_open_insert; [done|]. by intros _ _.
  - apply RefundHTLC_inr in Hrun as (htlc & _ & _ & _ & -> & _).
    apply secrets_open_insert; [done|]. intros _ Hstate. discriminate Hstate.
Qed.

(** X16. Over the records stored under hash locks of one length: if the
    secret of every Completed record gives, with the timestamp of the
    record, the hash lock the record is stored under, it is still so
    after any run of operations in which [CreateHTLC] is handed hash
    locks of that length and records that are not Completed (or are so
    with such a secret). [ClaimHTLC] and [RefundHTLC] keep it
    whatever they are called with. *)
Theorem completed_records_keep_their_secret (n : nat) k ops ctx rs ctx' :
  secrets_open n k (store ctx) →
  Forall (keeps_secrets_open n k) ops →
  run_all k ops ctx = Some (rs, ctx') →
  secrets_open n k (store ctx').
Proof.
  intros Hinv Hops. revert ctx rs Hinv.
  induction Hops as [|op ops Hop Hops IH]; intros ctx rs Hinv Hrun;
    simpl in Hrun.
  - by injection Hrun as <- <-.
  - destruct (run k op ctx) as [[r ctx1]|] eqn:Hstep; [|done].
    destruct (run_all k ops ctx1) as [[rs1 ctx2]|] eqn:Hrest; [|done].
    injection Hrun as <- <-.
    apply (IH ctx1 rs1); [|done]. by eapply run_keeps_secrets_open.
Qed.

(** ** Lookups and writes of the store *)

(** X17. [HasSecretHashLock] and [GetHTLC] read the store and change nothing.
    [GetHTLC] returns the error of an unknown hash lock exactly when
    [HasSecretHashLock] answers false, and a record or a panic
    otherwise. *)
Theorem lookups_read_only k secretHashLock ctx :
  HasSecretHashLock k secretHashLock ctx
  = Some (bool_decide (has_record (store ctx) secretHashLock), ctx)
  ∧ (∀ r ctx', GetHTLC k secretHashLock ctx = Some (r, ctx') → ctx' = ctx)
  ∧ (HasSecretHashLock k secretHashLock ctx = Some (false, ctx)
     ↔ ∃ err, GetHTLC k secretHashLock ctx = Some (inl err, ctx)).
Proof.
  unfold has_record. unfold_keeper. simpl. split; [done|].
  destruct (store ctx !! KeyHTLC secretHashLock) as [bz|] eqn:Hbz; simpl.
  - destruct (UnmarshalHTLC bz) as [htlc|]; split.
    + by intros r ctx' [= <- <-].
    + split; [done|]. by intros [err ?].
    + done.
    + split; [done|]. by intros [err ?].
  - split.
    + by intros r ctx' [= <- <-].
    + split; [eauto|done].
Qed.

(** X18. [SetHTLC] replaces the record under its hash lock: after two calls
    [GetHTLC] reads the second record, and the store is as after the
    second call alone. The record under every other hash lock is as it
    was, and nothing but the store is touched. *)
Theorem SetHTLC_replaces k htlc1 htlc2 secretHashLock ctx :
  let ctx1 := after (SetHTLC k htlc1 secretHashLock) ctx in
  let ctx2 := after (SetHTLC k htlc2 secretHashLock) ctx1 in
  GetHTLC k secretHashLock ctx2 = Some (inr htlc2, ctx2)
  ∧ store ctx2 = store (after (SetHTLC k htlc2 secretHashLock) ctx)
  ∧ (∀ lock : bytes,
       lock ≠ secretHashLock →
       record_at (store ctx1) lock = record_at (store ctx) lock)
  ∧ accounts ctx1 = accounts ctx
  ∧ coinflow ctx1 = coinflow ctx
  ∧ sent ctx1 = sent ctx.
Proof.
  simpl. split; [|split; [|split]].
  - apply GetHTLC_inr. split; [|done]. apply record_at_insert_eq.
  - unfold after. unfold_keeper. simpl. apply insert_insert_eq.
  - intros lock Hne. unfold after. unfold_keeper. simpl.
    apply record_at_insert_ne. intros Heq. by apply Hne, eq_sym, KeyHTLC_inj.
  - done.
Qed.


(** X20. [AddHTLCToExpireQueue] and [DeleteHTLCFromExpireQueue] touch one key
    of the store and nothing else: the entries of other hash locks and
    heights, the records under hash locks of the length of theirs, the
    accounts. Adding twice is adding once. *)
Theorem expire_queue_writes_one_key k expireHeight secretHashLock ctx :
  let added := after (AddHTLCToExpireQueue k expireHeight secretHashLock) ctx in
  let deleted :=
    after (DeleteHTLCFromExpireQueue k expireHeight secretHashLock) ctx in
  (∀ key : bytes,
     key ≠ KeyHTLCExpireQueue expireHeight secretHashLock →
     store added !! key = store ctx !! key
     ∧ store deleted !! key = store ctx !! key)
  ∧ (∀ lock : bytes,
       length lock = length secretHashLock →
       record_at (store added) lock = record_at (store ctx) lock
       ∧ record_at (store deleted) lock = record_at (store ctx) lock)
  ∧ after (AddHTLCToExpireQueue k expireHeight secretHashLock) added = added
  ∧ accounts added = accounts ctx ∧ accounts deleted = accounts ctx
  ∧ sent added = sent ctx ∧ sent deleted = sent ctx.
Proof.
  simpl. unfold after, record_at. unfold_keeper. simpl.
  split; [|split; [|split]].
  - intros key Hne. by rewrite lookup_insert_ne, lookup_delete_ne.
  - intros lock Hlen.
    pose proof (KeyHTLC_ne_KeyHTLCExpireQueue expireHeight _ _ Hlen) as Hne.
    by rewrite lookup_insert_ne, lookup_delete_ne.
  - by rewrite insert_insert_eq.
  - done.
Qed.

(** ** One creation, and no refund before expiry *)

Lemma no_creation_once_taken k (lock : bytes) ops ctx rs ctx' :
  is_Some (store ctx !! KeyHTLC lock) →
  run_all k ops ctx = Some (rs, ctx') →
  count_calls (creates_at lock) ops rs = 0%nat.
Proof.
  revert ctx rs. induction ops as [|op ops IH]; intros ctx rs Hkey Hrun;
    simpl in Hrun.
  - by injection Hrun as <- <-.
  - destruct (run k op ctx) as [[r ctx1]|] eqn:Hstep; [|done].
    destruct (run_all k ops ctx1) as [[rs1 ctx2]|] eqn:Hrest; [|done].
    injection Hrun as <- <-. simpl.
    rewrite (IH ctx1 rs1 (run_store_grows _ _ _ _ _ _ Hstep Hkey) Hrest).
    destruct op as [htlc l|secret l|l], r as [err|tags]; simpl; try done.
    case_bool_decide as Hl; [|done]. subst l. simpl in Hstep.
    apply CreateHTLC_inr in Hstep as (Hnone & _).
    rewrite Hnone in Hkey. by destruct Hkey.
Qed.

(** X9. A hash lock is taken once. In any run of operations, from any
    context, at most one [CreateHTLC] on a hash lock succeeds: the key of
    the record is never taken out of the store, so every later
    [CreateHTLC] on it finds the hash lock taken. *)
Theorem at_most_one_creation k (secretHashLock : bytes) ops ctx rs ctx' :
  run_all k ops ctx = Some (rs, ctx') →
  (count_calls (creates_at secretHashLock) ops rs ≤ 1)%nat.
Proof.
  revert ctx rs. induction ops as [|op ops IH]; intros ctx rs Hrun;
    simpl in Hrun.
  - injection Hrun as <- <-. simpl. lia.
  - destruct (run k op ctx) as [[r ctx1]|] eqn:Hstep; [|done].
    destruct (run_all k ops ctx1) as [[rs1 ctx2]|] eqn:Hrest; [|done].
    injection Hrun as <- <-. simpl.
    destruct (creates_at secretHashLock op r) eqn:Hcreates.
    + destruct op as [htlc l|secret l|l], r as [err|tags]; simpl in *;
        try done.
      apply bool_decide_eq_true in Hcreates as ->.
      pose proof (CreateHTLC_record _ _ _ _ _ _ Hstep) as Hrec.
      assert (Hkey : is_Some (store ctx1 !! KeyHTLC secretHashLock)).
      { unfold record_at in Hrec.
        destruct (store ctx1 !! KeyHTLC secretHashLock); [done|discriminate]. }
      rewrite (no_creation_once_taken _ _ _ _ _ _ Hkey Hrest). lia.
    + specialize (IH ctx1 rs1 Hrest). lia.
Qed.

Lemma not_expired_stays k op ctx r ctx' (lock : bytes) htlc :
  run k op ctx = Some (r, ctx') →
  length lock = length (op_lock op) →
  record_at (store ctx) lock = Some htlc →
  State htlc ≠ StateExpired →
  refunds_at lock op r = false
  ∧ ∃ htlc', record_at (store ctx') lock = Some htlc'
             ∧ State htlc' ≠ StateExpired.
Proof.
  intros Hrun Hlen Hrec Hstate.
  destruct (run_record_step _ _ _ _ _ _ _ Hrun Hlen Hrec)
    as [Hsame|[(secret & tags & -> & -> & _ & _ & Hnew)
              |(tags & _ & _ & Hexpired & _)]]; [| |done].
  - split; [|eauto].
    destruct op as [new l|secret l|l], r as [err|tags]; simpl in *; try done.
    case_bool_decide as Hl; [|done]. subst l.
    apply RefundHTLC_inr in Hrun as (old & Hold & Hexpired & _).
    rewrite Hrec in Hold. injection Hold as <-. done.
  - split; [done|]. eexists. split; [exact Hnew|]. discriminate.
Qed.

(** X10. No refund before expiry, and no expiry by the keeper: a record that
    is not Expired is never made Expired by [CreateHTLC], [ClaimHTLC] or
    [RefundHTLC], so in any run of operations on hash locks of one
    length, no [RefundHTLC] on its hash lock succeeds. The record has to
    be marked Expired from outside these operations before a refund. *)
Theorem no_refund_before_expiry k (secretHashLock : bytes) htlc
    ops ctx rs ctx' :
  Forall (λ op, length (op_lock op) = length secretHashLock) ops →
  record_at (store ctx) secretHashLock = Some htlc →
  State htlc ≠ StateExpired →
  run_all k ops ctx = Some (rs, ctx') →
  count_calls (refunds_at secretHashLock) ops rs = 0%nat
  ∧ ∃ htlc', record_at (store ctx') secretHashLock = Some htlc'
             ∧ State htlc' ≠ StateExpired.
Proof.
  intros Hlen. revert htlc ctx rs.
  induction Hlen as [|op ops Hop Hops IH]; intros htlc ctx rs Hrec Hstate Hrun;
    simpl in Hrun.
  - injection Hrun as <- <-. eauto.
  - destruct (run k op ctx) as [[r ctx1]|] eqn:Hstep; [|done].
    destruct (run_all k ops ctx1) as [[rs1 ctx2]|] eqn:Hrest; [|done].
    injection Hrun as <- <-. simpl.
    destruct (not_expired_stays _ _ _ _ _ secretHashLock htlc Hstep)
      as (-> & htlc1 & Hrec1 & Hstate1); [done..|].
    destruct (IH htlc1 ctx1 rs1 Hrec1 Hstate1 Hrest) as (-> & Hend).
    done.
Qed.

End keeper_more.

(** ** The order of the keys of the expiration queue *)

Lemma bytes_leb_app_head (p x y : bytes) :
  bytes_leb (p ++ x) (p ++ y) = bytes_leb x y.
Proof.
  induction p as [|c p IH]; simpl; [done|].
  by rewrite bool_decide_eq_true_2.
Qed.

Lemma bytes_leb_app_ne (x y s t : bytes) :
  length x = length y → x ≠ y →
  bytes_leb (x ++ s) (y ++ t) = bytes_leb x y.
Proof.
  revert y. induction x as [|c x IH]; intros [|d y] Hlen Hne; simpl in *;
    try done.
  case_bool_decide as Hcd; [|done].
  apply IH; [lia|]. intros ->. apply Hne. by rewrite Hcd.
Qed.

Lemma bytes_leb_snoc (x y : bytes) (c d : byte) :
  length x = length y →
  bytes_leb (x ++ [c]) (y ++ [d])
  = if decide (x = y) then (Byte.to_N c <=? Byte.to_N d)%N else bytes_leb x y.
Proof.
  intros Hlen. destruct (decide (x = y)) as [->|Hne].
  - rewrite bytes_leb_app_head. simpl. case_bool_decide as Hcd.
    + subst. symmetry. apply N.leb_le. lia.
    + assert (Byte.to_N c ≠ Byte.to_N d)
        by (intros ?; by apply Hcd, to_N_inj).
      destruct (N.ltb_spec (Byte.to_N c) (Byte.to_N d));
        symmetry; [apply N.leb_le|apply N.leb_gt]; lia.
  - by apply bytes_leb_app_ne.
Qed.

Lemma length_big_endian (n : nat) (v : Z) : length (big_endian n v) = n.
Proof.
  revert v. induction n as [|n IH]; intros v; simpl; [done|].
  rewrite length_app, IH. simpl. lia.
Qed.

Lemma to_N_byte_of_Z (v : Z) : Z.of_N (Byte.to_N (byte_of_Z v)) = v mod 256.
Proof. apply Z_of_byte_of_Z. Qed.

Lemma big_endian_le (n : nat) (a b : Z) :
  0 <= a < 256 ^ Z.of_nat n → 0 <= b < 256 ^ Z.of_nat n →
  bytes_leb (big_endian n a) (big_endian n b) = true ↔ a <= b.
Proof.
  revert a b. induction n as [|n IH]; intros a b Ha Hb.
  - simpl in *. split; [lia|done].
  - rewrite Nat2Z.inj_succ, Z.pow_succ_r in Ha, Hb by lia. simpl.
    assert (Ha' : 0 <= a / 256 < 256 ^ Z.of_nat n)
      by (split; [apply Z.div_pos; lia|apply Z.div_lt_upper_bound; lia]).
    assert (Hb' : 0 <= b / 256 < 256 ^ Z.of_nat n)
      by (split; [apply Z.div_pos; lia|apply Z.div_lt_upper_bound; lia]).
    rewrite bytes_leb_snoc by (by rewrite !length_big_endian).
    pose proof (Z.div_mod a 256 ltac:(lia)) as Hda.
    pose proof (Z.div_mod b 256 ltac:(lia)) as Hdb.
    pose proof (Z.mod_pos_bound a 256 ltac:(lia)).
    pose proof (Z.mod_pos_bound b 256 ltac:(lia)).
    destruct (decide (big_endian n (a / 256) = big_endian n (b / 256)))
      as [Heq|Hne].
    + apply big_endian_inj in Heq. rewrite !Z.mod_small in Heq by done.
      rewrite N.leb_le.
      pose proof (to_N_byte_of_Z (a mod 256)) as Hla.
      pose proof (to_N_byte_of_Z (b mod 256)) as Hlb.
      rewrite Z.mod_mod in Hla, Hlb by lia. lia.
    + rewrite (IH _ _ Ha' Hb').
      assert (a / 256 ≠ b / 256) by (intros Heq; apply Hne; by rewrite Heq).
      lia.
Qed.

Lemma Uint64ToBigEndian_le (a b : Z) :
  is_uint64 a → is_uint64 b →
  bytes_le (Uint64ToBigEndian a) (Uint64ToBigEndian b) ↔ a <= b.
Proof.
  unfold is_uint64, bytes_le. intros Ha Hb.
  rewrite !Uint64ToBigEndian_big_endian. by apply big_endian_le.
Qed.

(** X21. [Uint64ToBigEndian] writes eight bytes, tells the values of the type
    [uint64] apart, and keeps their order: one value is at most another
    exactly when its bytes are before or at the bytes of the other in
    the order of the keys of the store. *)
Theorem Uint64ToBigEndian_order (a b : Z) :
  is_uint64 a → is_uint64 b →
  length (Uint64ToBigEndian a) = 8%nat
  ∧ (Uint64ToBigEndian a = Uint64ToBigEndian b ↔ a = b)
  ∧ (bytes_le (Uint64ToBigEndian a) (Uint64ToBigEndian b) ↔ a <= b).
Proof.
  intros Ha Hb. split; [done|]. split.
  - split; [by apply Uint64ToBigEndian_inj|by intros ->].
  - by apply Uint64ToBigEndian_le.
Qed.

(** The keys of the expiration queue sort by height first and by hash
    lock second: for heights of the type [uint64], the key of one entry
    is before or at the key of another in the order of the store exactly
    when its height is lower, or the heights are equal and its hash lock
    is before or at the other. A scan of the store meets the entries of
    a lower height before those of a higher one. *)
Lemma KeyHTLCExpireQueue_order (h h' : Z) (d d' : bytes) :
  is_uint64 h → is_uint64 h' →
  bytes_le (KeyHTLCExpireQueue h d) (KeyHTLCExpireQueue h' d')
  ↔ h < h' ∨ (h = h' ∧ bytes_le d d').
Proof.
  intros Hh Hh'.
  unfold bytes_le, KeyHTLCExpireQueue, KeyHTLCExpireQueueSubspace.
  rewrite <- !app_assoc, bytes_leb_app_head.
  destruct (decide (h = h')) as [->|Hne].
  - rewrite bytes_leb_app_head. split; [by right|]. by intros [?|[_ ?]]; [lia|].
  - rewrite bytes_leb_app_ne.
    + pose proof (Uint64ToBigEndian_le h h' Hh Hh') as Hle.
      unfold bytes_le in Hle. rewrite Hle. lia.
    + reflexivity.
    + intros Heq. by apply Hne, Uint64ToBigEndian_inj.
Qed.

(** ** More of the contract of [Scenario] *)

Lemma Scenario_record_completed :
  record_at (store Scenario.ctx2) Scenario.hashLock
  = Some (with_state (with_secret Scenario.htlc Scenario.secret)
            StateCompleted).
Proof. vm_compute. reflexivity. Qed.

Lemma Scenario_no_record :
  store Scenario.ctx0 !! KeyHTLC Scenario.hashLock = None.
Proof. vm_compute. reflexivity. Qed.


Lemma Runs_replies :
  run_all (bk := ledger) Scenario.k Runs.ops Scenario.ctx0
  = Some (Runs.replies, after (run_all Scenario.k Runs.ops) Scenario.ctx0).
Proof. apply after_reply. vm_compute. reflexivity. Qed.



Lemma secrets_open_empty {cdc : Codec} (n : nat) (k : Keeper) :
  secrets_open n k ∅.
Proof. intros lock htlc _. unfold record_at. by rewrite lookup_empty. Qed.

(** ** The further facts on the contract of [Scenario] *)

Lemma unknown_hash_lock_witness :
  store Scenario.ctx0 !! KeyHTLC Scenario.hashLock = None
  ∧ RefundHTLC (bk := ledger) Scenario.k Scenario.hashLock Scenario.ctx0
    = Some (inl (ErrInvalidSecretHashLock (codespace Scenario.k)
                   ("invalid secret hash lock: "
                    +:+ hex_EncodeToString Scenario.hashLock)),
            Scenario.ctx0).
Proof.
  split; [exact Scenario_no_record|].
  exact (proj2 (proj2 (unknown_hash_lock (bk := ledger) Scenario.k
                         Scenario.hashLock Scenario.ctx0 Scenario_no_record))).
Defined.

Lemma ClaimHTLC_not_open_witness :
  record_at (store Scenario.ctx2) Scenario.hashLock
  = Some (with_state (with_secret Scenario.htlc Scenario.secret)
            StateCompleted)
  ∧ State (with_state (with_secret Scenario.htlc Scenario.secret)
             StateCompleted) ≠ StateOpen
  ∧ ClaimHTLC (bk := ledger) Scenario.k Scenario.secret Scenario.hashLock
      Scenario.ctx2
    = Some (inl (ErrStateIsNotOpen (codespace Scenario.k)
                   "HTLC state is not Open."), Scenario.ctx2).
Proof.
  assert (Hstate : State (with_state (with_secret Scenario.htlc Scenario.secret)
                            StateCompleted) ≠ StateOpen) by discriminate.
  split; [exact Scenario_record_completed|]. split; [exact Hstate|].
  exact (proj1 (ClaimHTLC_not_open (bk := ledger) Scenario.k Scenario.hashLock
                  Scenario.ctx2 _ Scenario_record_completed Hstate
                  Scenario.secret)).
Defined.





Lemma terminal_record_refuses_witness :
  record_at (store Scenario.ctx2) (op_lock (Refund Scenario.hashLock))
  = Some (with_state (with_secret Scenario.htlc Scenario.secret)
            StateCompleted)
  ∧ terminal (with_state (with_secret Scenario.htlc Scenario.secret)
                StateCompleted)
  ∧ ∃ err,
      run (bk := ledger) Scenario.k (Refund Scenario.hashLock) Scenario.ctx2
      = Some (inl err, Scenario.ctx2).
Proof.
  assert (Hterminal : terminal (with_state
            (with_secret Scenario.htlc Scenario.secret) StateCompleted))
    by (left; reflexivity).
  split; [exact Scenario_record_completed|]. split; [exact Hterminal|].
  destruct (terminal_record_refuses (bk := ledger) Scenario.k
              (Refund Scenario.hashLock) Scenario.ctx2 _
              Scenario_record_completed Hterminal) as (err & Hrun & _).
  exists err. exact Hrun.
Defined.




Lemma ClaimHTLC_needs_digest_length_witness :
  ClaimHTLC (bk := ledger) Scenario.k Scenario.secret Scenario.hashLock
    Scenario.ctx1
  = Some (inr (Scenario.claimTags Scenario.secret Scenario.hashLock),
          Scenario.ctx2)
  ∧ length Scenario.hashLock = 32%nat.
Proof.
  split; [exact Scenario_claim|].
  exact (ClaimHTLC_needs_digest_length (bk := ledger) Scenario.k
           Scenario.secret Scenario.hashLock Scenario.ctx1 _ _ Scenario_claim).
Defined.


Lemma success_tags_one_coin_flow_witness :
  run (bk := ledger) Scenario.k (Create Scenario.htlc Scenario.hashLock)
    Scenario.ctx0
  = Some (inr (Scenario.createTags Scenario.hashLock), Scenario.ctx1)
  ∧ ∃ from to amount,
      sent Scenario.ctx1 = sent Scenario.ctx0 ++
        [ {| transfer_from := from; transfer_to := to;
             transfer_amount := [amount] |} ]
      ∧ coinflow Scenario.ctx1 = coinflow Scenario.ctx0 ++
        [ {| flow_from := from; flow_to := to; flow_amount := amount;
             flow_type := CoinHTLCCreateFlow; flow_desc := "" |} ].
Proof.
  split; [exact Scenario_create|].
  destruct (success_tags_one_coin_flow (bk := ledger) Scenario.k
              (Create Scenario.htlc Scenario.hashLock) Scenario.ctx0 _ _
              Scenario_create)
    as (from & to & amount & _ & _ & Hsent & Hflow).
  exists from, to, amount. split; [exact Hsent|exact Hflow].
Defined.

Lemma completed_records_keep_their_secret_witness :
  secrets_open 32 Scenario.k (store Scenario.ctx0)
  ∧ Forall (keeps_secrets_open 32 Scenario.k) Runs.ops
  ∧ run_all (bk := ledger) Scenario.k Runs.ops Scenario.ctx0
    = Some (Runs.replies, after (run_all Scenario.k Runs.ops) Scenario.ctx0)
  ∧ secrets_open 32 Scenario.k
      (store (after (run_all Scenario.k Runs.ops) Scenario.ctx0)).
Proof.
  assert (Hinv : secrets_open 32 Scenario.k (store Scenario.ctx0))
    by apply secrets_open_empty.
  assert (Hcreate : keeps_secrets_open 32 Scenario.k
                      (Create Scenario.htlc Scenario.hashLock))
    by (split; [apply SHA256_length|intros Hstate; discriminate Hstate]).
  assert (Hops : Forall (keeps_secrets_open 32 Scenario.k) Runs.ops)
    by (repeat (apply List.Forall_cons; [first [exact Hcreate|exact I]|]);
        apply List.Forall_nil).
  split; [exact Hinv|]. split; [exact Hops|]. split; [exact Runs_replies|].
  exact (completed_records_keep_their_secret (bk := ledger) 32 Scenario.k
           Runs.ops Scenario.ctx0 _ _ Hinv Hops Runs_replies).
Defined.

Lemma lookups_read_only_witness :
  HasSecretHashLock (bk := ledger) Scenario.k Scenario.hashLock Scenario.ctx0
  = Some (false, Scenario.ctx0)
  ∧ ∃ err,
      GetHTLC (bk := ledger) Scenario.k Scenario.hashLock Scenario.ctx0
      = Some (inl err, Scenario.ctx0).
Proof.
  assert (Hhas : HasSecretHashLock (bk := ledger) Scenario.k Scenario.hashLock
                   Scenario.ctx0 = Some (false, Scenario.ctx0)).
  { rewrite (proj1 (lookups_read_only (bk := ledger) Scenario.k
                      Scenario.hashLock Scenario.ctx0)).
    rewrite bool_decide_eq_false_2; [reflexivity|].
    unfold has_record. rewrite Scenario_no_record. by intros [? ?]. }
  split; [exact Hhas|].
  exact (proj1 (proj2 (proj2 (lookups_read_only (bk := ledger) Scenario.k
                                Scenario.hashLock Scenario.ctx0))) Hhas).
Defined.

Lemma SetHTLC_replaces_witness :
  GetHTLC (bk := ledger) Scenario.k Scenario.hashLock
    (after (SetHTLC Scenario.k Scenario.htlc_completed Scenario.hashLock)
       (after (SetHTLC Scenario.k Scenario.htlc Scenario.hashLock)
          Scenario.ctx0))
  = Some (inr Scenario.htlc_completed,
          after (SetHTLC Scenario.k Scenario.htlc_completed Scenario.hashLock)
            (after (SetHTLC Scenario.k Scenario.htlc Scenario.hashLock)
               Scenario.ctx0)).
Proof.
  exact (proj1 (SetHTLC_replaces (bk := ledger) Scenario.k Scenario.htlc
                  Scenario.htlc_completed Scenario.hashLock Scenario.ctx0)).
Defined.


Lemma expire_queue_writes_one_key_witness :
  record_at
    (store (after (AddHTLCToExpireQueue (bk := ledger) Scenario.k
                     (ExpireHeight Scenario.htlc) Scenario.hashLock)
              Scenario.ctx1)) Scenario.hashLock
  = record_at (store Scenario.ctx1) Scenario.hashLock.
Proof.
  exact (proj1 (proj1 (proj2 (expire_queue_writes_one_key (bk := ledger)
           Scenario.k (ExpireHeight Scenario.htlc) Scenario.hashLock
           Scenario.ctx1)) Scenario.hashLock eq_refl)).
Defined.

Lemma Uint64ToBigEndian_order_witness :
  is_uint64 1000 ∧ is_uint64 (2 ^ 64 - 1)
  ∧ bytes_le (Uint64ToBigEndian 1000) (Uint64ToBigEndian (2 ^ 64 - 1))
  ∧ ¬ bytes_le (Uint64ToBigEndian (2 ^ 64 - 1)) (Uint64ToBigEndian 1000).
Proof.
  assert (Ha : is_uint64 1000) by (unfold is_uint64; lia).
  assert (Hb : is_uint64 (2 ^ 64 - 1)) by (unfold is_uint64; lia).
  split; [exact Ha|]. split; [exact Hb|]. split.
  - apply (proj2 (proj2 (Uint64ToBigEndian_order 1000 (2 ^ 64 - 1) Ha Hb))).
    lia.
  - intros Hle.
    apply (proj2 (proj2 (Uint64ToBigEndian_order (2 ^ 64 - 1) 1000 Hb Ha)))
      in Hle.
    lia.
Defined.

Lemma at_most_one_creation_witness :
  run_all (bk := ledger) Scenario.k Runs.ops Scenario.ctx0
  = Some (Runs.replies, after (run_all Scenario.k Runs.ops) Scenario.ctx0)
  ∧ count_calls (creates_at Scenario.hashLock) Runs.ops Runs.replies = 1%nat
  ∧ (count_calls (creates_at Scenario.hashLock) Runs.ops Runs.replies ≤ 1)%nat.
Proof.
  split; [exact Runs_replies|]. split; [vm_compute; reflexivity|].
  exact (at_most_one_creation (bk := ledger) Scenario.k Scenario.hashLock
           Runs.ops Scenario.ctx0 _ _ Runs_replies).
Defined.

Lemma Runs_refund_open :
  run_all (bk := ledger) Scenario.k [Refund Scenario.hashLock] Scenario.ctx1
  = Some ([inl (ErrStateIsNotOpen "htlc" "HTLC state is not Expired.")],
          after (run_all Scenario.k [Refund Scenario.hashLock]) Scenario.ctx1).
Proof. apply after_reply. vm_compute. reflexivity. Qed.

Lemma no_refund_before_expiry_witness :
  Forall (λ op, length (op_lock op) = length Scenario.hashLock)
    [Refund Scenario.hashLock]
  ∧ record_at (store Scenario.ctx1) Scenario.hashLock = Some Scenario.htlc
  ∧ State Scenario.htlc ≠ StateExpired
  ∧ run_all (bk := ledger) Scenario.k [Refund Scenario.hashLock] Scenario.ctx1
    = Some ([inl (ErrStateIsNotOpen "htlc" "HTLC state is not Expired.")],
            after (run_all Scenario.k [Refund Scenario.hashLock])
              Scenario.ctx1)
  ∧ count_calls (refunds_at Scenario.hashLock) [Refund Scenario.hashLock]
      [inl (ErrStateIsNotOpen "htlc" "HTLC state is not Expired.")] = 0%nat.
Proof.
  assert (Hlen : Forall (λ op, length (op_lock op) = length Scenario.hashLock)
                   [Refund Scenario.hashLock]) by (repeat constructor).
  assert (Hstate : State Scenario.htlc ≠ StateExpired) by discriminate.
  split; [exact Hlen|]. split; [exact Scenario_record|].
  split; [exact Hstate|]. split; [exact Runs_refund_open|].
  exact (proj1 (no_refund_before_expiry (bk := ledger) Scenario.k
                  Scenario.hashLock Scenario.htlc [Refund Scenario.hashLock]
                  Scenario.ctx1 _ _ Hlen Scenario_record Hstate
                  Runs_refund_open)).
Defined.
